(** * uC lexer (uc/uc_lexer.py): a shallow embedding and its properties

    The lexer is the class [UCLexer], a rule table handed to the PLY
    engine ([lex.lex(object=self, reflags=re.VERBOSE)]).  The file
    embeds, in this order:

    - the characters and the character classes the patterns use;
    - the regular expressions of the rule table, as syntax trees, and the
      backtracking matcher Python's [re] runs on them (first alternative
      first, greedy and lazy repetition);
    - the rule table itself and the order in which PLY tries the rules;
    - the lexer state, the handlers [t_...], [_error], [find_tok_column],
      and the loop of [lex.token()];
    - the properties of the scanner.

    PLY and [re] are libraries the class calls.  What the class relies on
    is written out here as these libraries do it:

    - [lex.lex] collects the rules [t_...] of the class: the rules given
      as functions first, in the order of their [def] lines, then the
      rules given as strings, the longer pattern text first;
    - [Lexer.token()] skips the characters of [t_ignore], tries the rules
      in this order at the cursor and takes the first whose pattern
      matches; a rule function may change the token or drop it, and
      [t_error] is called when no rule matches;
    - a pattern is matched by backtracking from the cursor on, and the
      match is the first one found.

    Source text is modelled as [list ascii], a character being a code
    point from 0 to 255 (Latin-1).  The patterns are compiled without
    [re.ASCII], so [\d] and [\w] are Python's Unicode classes; on these
    code points [\d] is the ten digits and [\w] is the ASCII word
    characters and the letters and numbers of Latin-1.  Text with code
    points above 255 is outside the model. *)

From Stdlib Require Import List Ascii String Arith ZArith Lia Bool.
Import ListNotations.

Open Scope list_scope.

(** ** Characters *)

Definition str := list ascii.

Definition newline : ascii := "010"%char.
Definition tab : ascii := "009"%char.
Definition dquote : ascii := "034"%char.
Definition squote : ascii := "'"%char.
Definition backslash : ascii := "\"%char.

(** A Python string literal of the source, as a [str]. *)
Definition s (x : string) : str := list_ascii_of_string x.

Definition between (lo hi c : ascii) : bool :=
  (nat_of_ascii lo <=? nat_of_ascii c) && (nat_of_ascii c <=? nat_of_ascii hi).

Definition is_digit (c : ascii) : bool := between "0" "9" c.

(** The word characters above 127: the letters and the numbers of
    Latin-1, as Python's Unicode tables class them ([str.isalnum]). *)
Definition latin1_word (c : ascii) : bool :=
  let n := nat_of_ascii c in
  existsb (Nat.eqb n) [170; 178; 179; 181; 185; 186; 188; 189; 190]
  || ((192 <=? n) && (n <=? 214))
  || ((216 <=? n) && (n <=? 246))
  || ((248 <=? n) && (n <=? 255)).

(** [\w] of a [str] pattern compiled without [re.ASCII]. *)
Definition is_word (c : ascii) : bool :=
  between "a" "z" c || between "A" "Z" c || is_digit c || Ascii.eqb c "_"
  || latin1_word c.

(** ** Patterns *)

(** What one position of a pattern accepts. *)
Inductive charset : Type :=
| One (c : ascii)               (* an escaped or plain character *)
| AnyChar                       (* [.]: anything but a newline *)
| D                             (* [\d] *)
| W                             (* [\w] *)
| NonW                          (* [\W] *)
| Neither (a b : charset).      (* [[^ab]] *)

Fixpoint accepts (cs : charset) (c : ascii) : bool :=
  match cs with
  | One x => Ascii.eqb c x
  | AnyChar => negb (Ascii.eqb c newline)
  | D => is_digit c
  | W => is_word c
  | NonW => negb (is_word c)
  | Neither a b => negb (accepts a c || accepts b c)
  end.

Inductive regex : Type :=
| Eps
| Chr (cs : charset)
| Cat (r1 r2 : regex)
| Alt (r1 r2 : regex)
| Star (greedy : bool) (r : regex).

Declare Scope re_scope.
Delimit Scope re_scope with re.
Bind Scope re_scope with regex.
Infix ";;" := Cat (at level 41, right associativity) : re_scope.
Infix "<|>" := Alt (at level 45, right associativity) : re_scope.

Definition lit (c : ascii) : regex := Chr (One c).
Definition dot : regex := Chr AnyChar.
Definition digit : regex := Chr D.
(** [r?], [r+] and [r+?] *)
Definition Opt (r : regex) : regex := Alt r Eps.
Definition Plus (greedy : bool) (r : regex) : regex := Cat r (Star greedy r).

(** ** The backtracking matcher

    [rmatch r x k] matches [r] at the head of [x] and hands what is left
    to the continuation [k]; when [k] refuses, the matcher backtracks
    into [r].  The result is what the first successful path leaves
    unread.  Alternatives are tried left to right; a greedy repetition
    tries one more round before it tries to stop, a lazy one the other
    way round.  A round that reads nothing ends the repetition. *)

Definition cont := str -> option str.

Fixpoint star_loop (greedy : bool) (body : str -> cont -> option str)
    (k : cont) (n : nat) (x : str) {struct n} : option str :=
  if greedy then
    match
      match n with
      | O => None
      | S n' =>
          body x (fun x' =>
            if Nat.ltb (List.length x') (List.length x) then star_loop greedy body k n' x'
            else None)
      end
    with
    | Some r => Some r
    | None => k x
    end
  else
    match k x with
    | Some r => Some r
    | None =>
        match n with
        | O => None
        | S n' =>
            body x (fun x' =>
              if Nat.ltb (List.length x') (List.length x) then star_loop greedy body k n' x'
              else None)
        end
    end.

Fixpoint rmatch (r : regex) (x : str) (k : cont) {struct r} : option str :=
  match r with
  | Eps => k x
  | Chr cs =>
      match x with
      | c :: x' => if accepts cs c then k x' else None
      | [] => None
      end
  | Cat r1 r2 => rmatch r1 x (fun x' => rmatch r2 x' k)
  | Alt r1 r2 =>
      match rmatch r1 x k with
      | Some res => Some res
      | None => rmatch r2 x k
      end
  | Star g r' => star_loop g (rmatch r') k (List.length x) x
  end.

(** [re.match(data, pos)] on the text from [pos] on: the length of the
    match, when there is one. *)
Definition re_match (r : regex) (x : str) : option nat :=
  match rmatch r x Some with
  | Some rest => Some (List.length x - List.length rest)
  | None => None
  end.

(** ** The patterns of the rule table *)

Open Scope string_scope.
Open Scope list_scope.
Open Scope re_scope.

(** [\d(\d|_\d)*] *)
Definition digits : regex := digit ;; Star true (digit <|> lit "_" ;; digit).

Definition re_INT_CONST : regex := digits.

(** [\'(\\.|.)+?\'] *)
Definition re_CHAR_CONST : regex :=
  lit squote ;; Plus false (lit backslash ;; dot <|> dot) ;; lit squote.

(** [(E|e)(\+|-)?] *)
Definition exp_mark : regex := (lit "E" <|> lit "e") ;; Opt (lit "+" <|> lit "-").

(** The pattern of [t_FLOAT_CONST], read under [re.VERBOSE]: blanks and
    the [#] comments drop out.  In its first group the exponent follows
    the second alternative only (concatenation binds tighter than [|]),
    and the last alternative has no repetition. *)
Definition re_FLOAT_CONST : regex :=
  ( (digits ;; lit "." ;; Opt digits)
    <|>
    ((Opt digits ;; lit "." ;; digits) ;; Opt (exp_mark ;; digits)) )
  <|>
  ( digit ;; (digit <|> lit "_" ;; digit) ;; exp_mark ;;
    digit ;; (digit <|> lit "_" ;; digit) ).

(** A double quote, the lazy [(\\.|.|\n)*?], a double quote. *)
Definition re_STRING_LITERAL : regex :=
  lit dquote ;; Star false (lit backslash ;; dot <|> dot <|> lit newline) ;;
  lit dquote.

(** [[^\d\W]\w*] *)
Definition re_ID : regex := Chr (Neither D NonW) ;; Star true (Chr W).

(** [\n+] *)
Definition re_NEWLINE : regex := Plus true (lit newline).

(** Two alternatives: a block comment, [/\*] then the lazy [(.|\n)*?]
    then [\*/]; or a line comment, [//] then the greedy [.*] . *)
Definition re_comment : regex :=
  (lit "/" ;; lit "*" ;; Star false (dot <|> lit newline) ;; lit "*" ;; lit "/")
  <|> (lit "/" ;; lit "/" ;; Star true dot).

(** A double quote, then the greedy [(\\.|.|\n)*] . *)
Definition re_unterminated_string : regex :=
  lit dquote ;; Star true (lit backslash ;; dot <|> dot <|> lit newline).

(** [/\*(.|\n)*] *)
Definition re_unterminated_comment : regex :=
  lit "/" ;; lit "*" ;; Star true (dot <|> lit newline).

(** ** Tokens, the lexer object and the error callback *)

Record LexToken : Type := mkTok {
  tok_type : string;
  tok_value : str;
  tok_lineno : nat;
  tok_lexpos : nat
}.

(** The fields of PLY's [Lexer] the class uses; [lexlen] is the length
    of [lexdata]. *)
Record Lexer : Type := mkLexer {
  lexdata : str;
  lexpos : nat;
  lineno : nat
}.

Definition lexlen (l : Lexer) : nat := List.length (lexdata l).

(** The three messages [_error] is called with.  [Illegal_character c]
    stands for ["Illegal character %s" % repr(c)]. *)
Inductive message : Type :=
| Unterminated_string
| Unterminated_comment
| Illegal_character (c : ascii).

(** [error_func] belongs to the caller; its calls are recorded, in
    order, as [(msg, line, column)]. *)
Record UCLexer : Type := mkUC {
  lexer : Lexer;
  last_token : option LexToken;
  errors : list (message * nat * Z)
}.

Definition with_lexer (f : Lexer -> Lexer) (self : UCLexer) : UCLexer :=
  {| lexer := f (lexer self);
     last_token := last_token self;
     errors := errors self |}.

Definition set_lexpos (p : nat) (l : Lexer) : Lexer :=
  {| lexdata := lexdata l; lexpos := p; lineno := lineno l |}.

Definition set_lineno (n : nat) (l : Lexer) : Lexer :=
  {| lexdata := lexdata l; lexpos := lexpos l; lineno := n |}.

(** [Lexer.skip(n)] *)
Definition skip (n : nat) (l : Lexer) : Lexer := set_lexpos (lexpos l + n) l.

(** [Lexer.input(s)] *)
Definition lexer_input (text : str) (l : Lexer) : Lexer :=
  {| lexdata := text; lexpos := 0; lineno := lineno l |}.

(** Python exceptions the scanning code can raise. *)
Inductive exn : Type := LexError | IndexError.

Inductive res (A : Type) : Type :=
| Ok (a : A)
| Raise (e : exn).
Arguments Ok {A} a.
Arguments Raise {A} e.

(** ** The methods of [UCLexer] *)

Definition reset_lineno (self : UCLexer) : UCLexer :=
  with_lexer (set_lineno 1) self.

Definition input (text : str) (self : UCLexer) : UCLexer :=
  with_lexer (lexer_input text) self.

(** [x.rfind(c, 0, stop)]: the last index below [stop] that holds [c],
    or [-1]. *)
Fixpoint rfind_aux (c : ascii) (x : str) (i last : Z) : Z :=
  match x with
  | [] => last
  | y :: x' => rfind_aux c x' (i + 1)%Z (if Ascii.eqb y c then i else last)
  end.

Definition rfind (c : ascii) (x : str) (stop : nat) : Z :=
  rfind_aux c (firstn stop x) 0%Z (-1)%Z.

Definition find_tok_column (self : UCLexer) (token : LexToken) : Z :=
  let last_cr := rfind newline (lexdata (lexer self)) (tok_lexpos token) in
  (Z.of_nat (tok_lexpos token) - last_cr)%Z.

Definition _make_tok_location (self : UCLexer) (token : LexToken) : nat * Z :=
  (tok_lineno token, find_tok_column self token).

Definition _error (msg : message) (token : LexToken) (self : UCLexer) : UCLexer :=
  let location := _make_tok_location self token in
  {| lexer := skip 1 (lexer self);
     last_token := last_token self;
     errors := errors self ++ [(msg, fst location, snd location)] |}.

(** *** Keywords and token names *)

Definition keywords : list string :=
  [ "ASSERT"; "BOOL"; "BREAK"; "CHAR"; "ELSE"; "FALSE"; "FLOAT"; "FOR";
    "IF"; "INT"; "PRINT"; "READ"; "RETURN"; "TRUE"; "VOID"; "WHILE" ].

(** [str.lower()] on ASCII text. *)
Definition lower_char (c : ascii) : ascii :=
  if between "A" "Z" c then ascii_of_nat (nat_of_ascii c + 32) else c.

Fixpoint lower (x : string) : string :=
  match x with
  | EmptyString => EmptyString
  | String c x' => String (lower_char c) (lower x')
  end.

(** A [dict] with string keys, as an association list without repeated
    keys: [d[k] = v] and [d.get(k, default)]. *)
Definition dict := list (string * string).

Definition dict_set (k v : string) (d : dict) : dict :=
  (k, v) :: filter (fun e => negb (String.eqb (fst e) k)) d.

Fixpoint dict_get (d : dict) (k default : string) : string :=
  match d with
  | [] => default
  | (k', v) :: d' => if String.eqb k' k then v else dict_get d' k default
  end.

(** [for keyword in keywords: keyword_map[keyword.lower()] = keyword] *)
Definition keyword_map : dict :=
  fold_left (fun d keyword => dict_set (lower keyword) keyword d) keywords [].

Definition tokens : list string :=
  keywords ++
  [ "ID";
    "INT_CONST"; "STRING_LITERAL"; "CHAR_CONST"; "FLOAT_CONST";
    "LPAREN"; "RPAREN"; "LBRACE"; "RBRACE"; "LBRACKET"; "RBRACKET";
    "EQ"; "NE"; "LT"; "GT"; "LE"; "GE";
    "EQUALS"; "PLUS"; "MOD"; "MINUS"; "TIMES"; "DIVIDE"; "AND"; "OR"; "NOT";
    "ADDRESS";
    "SEMI"; "COMMA" ].

(** [t_ignore = " \t"] *)
Definition t_ignore : str := [" "%char; tab].

(** *** Rule functions

    A rule function receives the token PLY built and the lexer; it
    returns the token to emit, or nothing when the text is dropped. *)

Definition handler : Type := LexToken -> UCLexer -> res (option LexToken * UCLexer).

(** [x.count(c)] *)
Definition count (c : ascii) (x : str) : nat :=
  List.length (filter (Ascii.eqb c) x).

(** [x[1:-1]] *)
Definition strip_ends (x : str) : str := removelast (tl x).

Definition t_STRING_LITERAL : handler := fun t self =>
  Ok (Some {| tok_type := tok_type t;
              tok_value := strip_ends (tok_value t);
              tok_lineno := tok_lineno t;
              tok_lexpos := tok_lexpos t |}, self).

Definition t_ID : handler := fun t self =>
  Ok (Some {| tok_type := dict_get keyword_map
                            (string_of_list_ascii (tok_value t)) "ID";
              tok_value := tok_value t;
              tok_lineno := tok_lineno t;
              tok_lexpos := tok_lexpos t |}, self).

Definition add_lines (t : LexToken) (l : Lexer) : Lexer :=
  set_lineno (lineno l + count newline (tok_value t)) l.

Definition t_NEWLINE : handler := fun t self =>
  Ok (None, with_lexer (add_lines t) self).

Definition t_comment : handler := fun t self =>
  Ok (None, with_lexer (add_lines t) self).

Definition t_unterminated_string : handler := fun t self =>
  Ok (None, _error Unterminated_string t self).

Definition t_unterminated_comment : handler := fun t self =>
  Ok (None, _error Unterminated_comment t self).

(** [t.value[0]] raises on an empty value. *)
Definition t_error : handler := fun t self =>
  match tok_value t with
  | c :: _ => Ok (None, _error (Illegal_character c) t self)
  | [] => Raise IndexError
  end.

(** ** The rule table and the order PLY gives it *)

Record rule : Type := mkRule {
  rname : string;
  pattern : regex;
  func : option handler
}.

(** The token name of rule [t_X] is [X]. *)
Definition toktype (r : rule) : string :=
  substring 2 (String.length (rname r) - 2) (rname r).

Definition rule_STRING_LITERAL := mkRule "t_STRING_LITERAL" re_STRING_LITERAL (Some t_STRING_LITERAL).
Definition rule_ID := mkRule "t_ID" re_ID (Some t_ID).
Definition rule_NEWLINE := mkRule "t_NEWLINE" re_NEWLINE (Some t_NEWLINE).
Definition rule_comment := mkRule "t_comment" re_comment (Some t_comment).
Definition rule_unterminated_string :=
  mkRule "t_unterminated_string" re_unterminated_string (Some t_unterminated_string).
Definition rule_unterminated_comment :=
  mkRule "t_unterminated_comment" re_unterminated_comment (Some t_unterminated_comment).

Definition rule_FLOAT_CONST := mkRule "t_FLOAT_CONST" re_FLOAT_CONST None.
Definition rule_CHAR_CONST := mkRule "t_CHAR_CONST" re_CHAR_CONST None.
Definition rule_INT_CONST := mkRule "t_INT_CONST" re_INT_CONST None.

(** The rules written as functions, as [dir()] lists them, each with the
    line of its [def]. *)
Definition funcsym : list (nat * rule) :=
  [ (187, rule_ID);
    (193, rule_NEWLINE);
    (182, rule_STRING_LITERAL);
    (197, rule_comment);
    (207, rule_unterminated_comment);
    (202, rule_unterminated_string) ].

(** The source text of the pattern of [t_FLOAT_CONST]. *)
Definition src_FLOAT_CONST : string := "
        (
            (
                (   # numbers like 123.
                    \d(\d|_\d)*\.(\d(\d|_\d)*)?
                )|( # and .456
                    (\d(\d|_\d)*)?\.\d(\d|_\d)*
                )   # can be 1.23e-2
                ((E|e)(\+|-)?\d(\d|_\d)*)?
            ) | (   # fractional isn't required with exponents
                \d(\d|_\d)(E|e)(\+|-)?\d(\d|_\d)
            )
        )
    ".

(** The rules written as strings, as [dir()] lists them, each with the
    source text of its pattern. *)
Definition strsym : list (string * rule) :=
  [ ("&", mkRule "t_ADDRESS" (lit "&") None);
    ("&&", mkRule "t_AND" (lit "&" ;; lit "&") None);
    ("\'(\\.|.)+?\'", rule_CHAR_CONST);
    (",", mkRule "t_COMMA" (lit ",") None);
    ("/", mkRule "t_DIVIDE" (lit "/") None);
    ("==", mkRule "t_EQ" (lit "=" ;; lit "=") None);
    ("=", mkRule "t_EQUALS" (lit "=") None);
    (src_FLOAT_CONST, rule_FLOAT_CONST);
    (">=", mkRule "t_GE" (lit ">" ;; lit "=") None);
    (">", mkRule "t_GT" (lit ">") None);
    ("\d(\d|_\d)*", rule_INT_CONST);
    ("\{", mkRule "t_LBRACE" (lit "{") None);
    ("\[", mkRule "t_LBRACKET" (lit "[") None);
    ("<=", mkRule "t_LE" (lit "<" ;; lit "=") None);
    ("\(", mkRule "t_LPAREN" (lit "(") None);
    ("<", mkRule "t_LT" (lit "<") None);
    ("-", mkRule "t_MINUS" (lit "-") None);
    ("%", mkRule "t_MOD" (lit "%") None);
    ("!=", mkRule "t_NE" (lit "!" ;; lit "=") None);
    ("!", mkRule "t_NOT" (lit "!") None);
    ("\|\|", mkRule "t_OR" (lit "|" ;; lit "|") None);
    ("\+", mkRule "t_PLUS" (lit "+") None);
    ("\}", mkRule "t_RBRACE" (lit "}") None);
    ("\]", mkRule "t_RBRACKET" (lit "]") None);
    ("\)", mkRule "t_RPAREN" (lit ")") None);
    (";", mkRule "t_SEMI" (lit ";") None);
    ("\*", mkRule "t_TIMES" (lit "*") None) ].

(** [list.sort(key=...)] is stable: an element goes after those that
    are not behind it. *)
Fixpoint insert_by {A : Type} (before : A -> A -> bool) (a : A) (l : list A) : list A :=
  match l with
  | [] => [a]
  | b :: l' => if before a b then a :: l else b :: insert_by before a l'
  end.

Definition sort_by {A : Type} (before : A -> A -> bool) (l : list A) : list A :=
  fold_left (fun acc a => insert_by before a acc) l [].

(** The master list of [lex.lex]: the functions by increasing line, then
    the strings by decreasing length of their pattern's source text. *)
Definition lexre : list rule :=
  map snd (sort_by (fun a b => Nat.ltb (fst a) (fst b)) funcsym)
  ++ map snd (sort_by (fun a b => Nat.ltb (String.length (fst b)) (String.length (fst a))) strsym).

(** The first rule of the list that matches, and how much it matches:
    the master pattern is the alternation of the rules in this order. *)
Fixpoint lexre_match (rules : list rule) (x : str) : option (rule * nat) :=
  match rules with
  | [] => None
  | r :: rules' =>
      match re_match (pattern r) x with
      | Some n => Some (r, n)
      | None => lexre_match rules' x
      end
  end.


(** ** [Lexer.token()]

    [token_round] is one round of the [while lexpos < lexlen] loop, and
    what follows the loop when the condition fails.  [pos] is the local
    variable [lexpos] of the method; the lexer's field [lexpos] is
    written before a rule function runs and when the method returns.  A round
    either leaves the method ([Leave]: a token, the end of input, or an
    exception) or goes round again ([Again]). *)

Definition in_str (c : ascii) (x : str) : bool := existsb (Ascii.eqb c) x.

Definition in_tokens (name : string) : bool := existsb (String.eqb name) tokens.

Inductive step : Type :=
| Leave (r : res (option LexToken * UCLexer))
| Again (self : UCLexer) (pos : nat).

Definition token_round (self : UCLexer) (pos : nat) : step :=
  match skipn pos (lexdata (lexer self)) with
  | [] =>
      (* lexpos >= lexlen: the loop is over, end of input *)
      Leave (Ok (None, with_lexer (set_lexpos (pos + 1)) self))
  | (c :: _) as rest =>
      if in_str c t_ignore then Again self (pos + 1)
      else
        match lexre_match lexre rest with
        | Some (r, n) =>
            let tok := {| tok_type := toktype r;
                          tok_value := firstn n rest;
                          tok_lineno := lineno (lexer self);
                          tok_lexpos := pos |} in
            let self1 := with_lexer (set_lexpos (pos + n)) self in
            match func r with
            | None => Leave (Ok (Some tok, self1))
            | Some f =>
                match f tok self1 with
                | Raise e => Leave (Raise e)
                | Ok (None, self2) =>
                    Again self2 (lexpos (lexer self2))
                | Ok (Some newtok, self2) =>
                    if in_tokens (tok_type newtok)
                    then Leave (Ok (Some newtok, self2))
                    else Leave (Raise LexError)
                end
            end
        | None =>
            (* no rule matches: [t_error] gets the rest of the text *)
            let tok := {| tok_type := "error";
                          tok_value := rest;
                          tok_lineno := lineno (lexer self);
                          tok_lexpos := pos |} in
            match t_error tok (with_lexer (set_lexpos pos) self) with
            | Raise e => Leave (Raise e)
            | Ok (newtok, self2) =>
                if Nat.eqb pos (lexpos (lexer self2))
                then Leave (Raise LexError)
                else
                  match newtok with
                  | None => Again self2 (lexpos (lexer self2))
                  | Some t => Leave (Ok (Some t, self2))
                  end
            end
        end
  end.

(** The loop, one round per unit of [fuel]; [None] means the fuel ran
    out before the method returned. *)
Fixpoint token_loop (fuel : nat) (self : UCLexer) (pos : nat)
    {struct fuel} : option (res (option LexToken * UCLexer)) :=
  match fuel with
  | O => None
  | S fuel' =>
      match token_round self pos with
      | Leave r => Some r
      | Again self' pos' => token_loop fuel' self' pos'
      end
  end.

(** Every round moves [lexpos] forward, so the rounds are at most the
    characters left, plus the one that sees the end. *)
Definition lex_token (self : UCLexer) : option (res (option LexToken * UCLexer)) :=
  token_loop (S (lexlen (lexer self) - lexpos (lexer self))) self
    (lexpos (lexer self)).

(** [UCLexer.token()] *)
Definition token (self : UCLexer) : option (res (option LexToken * UCLexer)) :=
  match lex_token self with
  | Some (Ok (t, self')) =>
      Some (Ok (t, {| lexer := lexer self'; last_token := t; errors := errors self' |}))
  | other => other
  end.

(** [UCLexer.scan(data)]: the tokens printed, in order. *)
Fixpoint scan_loop (fuel : nat) (self : UCLexer) (output : list LexToken)
    {struct fuel} : option (res (list LexToken * UCLexer)) :=
  match fuel with
  | O => None
  | S fuel' =>
      match lex_token self with
      | None => None
      | Some (Raise e) => Some (Raise e)
      | Some (Ok (None, self')) => Some (Ok (output, self'))
      | Some (Ok (Some tok, self')) => scan_loop fuel' self' (output ++ [tok])
      end
  end.

Definition scan (data : str) (self : UCLexer) : option (res (list LexToken * UCLexer)) :=
  scan_loop (S (S (List.length data))) (input data self) [].

(** A lexer after [__init__], [build()] and [reset_lineno()]. *)
Definition fresh : UCLexer :=
  {| lexer := {| lexdata := []; lexpos := 0; lineno := 1 |};
     last_token := None;
     errors := [] |}.

(** ** The vocabulary of the properties *)

(** [lang r u]: the text [u] is matched by [r], whatever path the
    matcher takes. *)
Inductive lang : regex -> str -> Prop :=
| lang_eps : lang Eps []
| lang_chr cs c : accepts cs c = true -> lang (Chr cs) [c]
| lang_cat r1 r2 u v : lang r1 u -> lang r2 v -> lang (Cat r1 r2) (u ++ v)
| lang_alt_l r1 r2 u : lang r1 u -> lang (Alt r1 r2) u
| lang_alt_r r1 r2 u : lang r2 u -> lang (Alt r1 r2) u
| lang_star_nil g r : lang (Star g r) []
| lang_star_cons g r u v :
    lang r u -> lang (Star g r) v -> lang (Star g r) (u ++ v).

#[local] Hint Constructors lang : core.

(** A successful path splits the text into a part in the language of the
    pattern and a rest the continuation accepted. *)
Definition sound_on (m : str -> cont -> option str) (r : regex) : Prop :=
  forall x k res, m x k = Some res ->
    exists u x', x = u ++ x' /\ lang r u /\ k x' = Some res.

(** Can the pattern match the empty text; can a match start with [c]. *)
Fixpoint nullable (r : regex) : bool :=
  match r with
  | Eps => true
  | Chr _ => false
  | Cat r1 r2 => nullable r1 && nullable r2
  | Alt r1 r2 => nullable r1 || nullable r2
  | Star _ _ => true
  end.

Fixpoint starts_with (r : regex) (c : ascii) : bool :=
  match r with
  | Eps => false
  | Chr cs => accepts cs c
  | Cat r1 r2 => starts_with r1 c || (nullable r1 && starts_with r2 c)
  | Alt r1 r2 => starts_with r1 c || starts_with r2 c
  | Star _ r' => starts_with r' c
  end.

(** What a round leaves behind: the buffer is untouched, the cursor has
    moved forward, and no exception is raised. *)
Definition round_ok (self : UCLexer) (pos : nat) (st : step) : Prop :=
  match st with
  | Leave (Ok (_, self')) =>
      lexdata (lexer self') = lexdata (lexer self)
      /\ pos < lexpos (lexer self')
  | Leave (Raise _) => False
  | Again self' pos' =>
      lexdata (lexer self') = lexdata (lexer self)
      /\ pos < pos' /\ pos < lexlen (lexer self)
  end.

(** [n] calls of [token()] return a token each, and the next one returns
    the end of input. *)
Fixpoint eof_after (n : nat) (self : UCLexer) : Prop :=
  match n with
  | O => exists self', token self = Some (Ok (None, self'))
  | S n' =>
      exists t self',
        token self = Some (Ok (Some t, self')) /\ eof_after n' self'
  end.

(** The state a string rule leaves, and the token it emits. *)
Definition plain_token (r : rule) (n : nat) (self : UCLexer) : LexToken :=
  let pos := lexpos (lexer self) in
  {| tok_type := toktype r;
     tok_value := firstn n (skipn pos (lexdata (lexer self)));
     tok_lineno := lineno (lexer self);
     tok_lexpos := pos |}.

(** C1 as the specification states it, at the text [x] under the cursor:
    no rule of the table matches more than the selected one. *)
Definition longest_match_selected (x : str) : Prop :=
  forall r n r' n',
    lexre_match lexre x = Some (r, n) ->
    In r' lexre -> re_match (pattern r') x = Some n' ->
    n' <= n.

(** The texts the pattern of [t_ID] matches in full: a word character
    that is no digit, then word characters. *)
Definition valid_identifier (x : str) : bool :=
  match x with
  | c :: x' => accepts (Neither D NonW) c && forallb is_word x'
  | [] => false
  end.

(** What follows cannot extend a word. *)
Definition word_ends (rest : str) : bool :=
  match rest with
  | c :: _ => negb (is_word c)
  | [] => true
  end.

(** The token [UCLexer.token()] returns for an identifier-shaped text
    [x] under the cursor. *)
Definition id_token (ty : string) (x : str) (self : UCLexer) : LexToken :=
  {| tok_type := ty;
     tok_value := x;
     tok_lineno := lineno (lexer self);
     tok_lexpos := lexpos (lexer self) |}.

Definition after_token (t : LexToken) (n : nat) (self : UCLexer) : UCLexer :=
  {| lexer := set_lexpos (lexpos (lexer self) + n) (lexer self);
     last_token := Some t;
     errors := errors self |}.

(** The text of the buffer a token was cut from. *)
Definition text_at (self : UCLexer) (t : LexToken) (n : nat) : str :=
  firstn n (skipn (tok_lexpos t) (lexdata (lexer self))).

(** A token leaves a round through a rule that matched at its position:
    a string rule, [t_STRING_LITERAL] or [t_ID]. *)
Definition emitted_by (self : UCLexer) (t : LexToken) (r : rule) (n : nat) : Prop :=
  In r lexre
  /\ n <= List.length (skipn (tok_lexpos t) (lexdata (lexer self)))
  /\ lang (pattern r) (text_at self t n)
  /\ ((func r = None /\ tok_type t = toktype r /\ tok_value t = text_at self t n)
      \/ (r = rule_STRING_LITERAL /\ tok_type t = "STRING_LITERAL"
          /\ tok_value t = strip_ends (text_at self t n))
      \/ (r = rule_ID
          /\ tok_type t = dict_get keyword_map (string_of_list_ascii (tok_value t)) "ID"
          /\ tok_value t = text_at self t n)).

(** C3 as the specification states it for character constants: the value
    of the token is the text between the quotes. *)
Definition char_const_quotes_stripped : Prop :=
  forall self t self',
    token self = Some (Ok (Some t, self')) ->
    tok_type t = "CHAR_CONST" ->
    squote :: tok_value t ++ [squote]
    = text_at self t (List.length (tok_value t) + 2).

(** The body of a complete string literal: characters other than the
    double quote, and pairs of a backslash and the character it escapes;
    no backslash is left dangling at the end. *)
Fixpoint closed_body (x : str) : bool :=
  match x with
  | [] => true
  | c :: x' =>
      if Ascii.eqb c dquote then false
      else if Ascii.eqb c backslash then
        match x' with
        | _ :: x'' => closed_body x''
        | [] => false
        end
      else closed_body x'
  end.

(** [(\\.|.|\n)] *)
Definition string_char : regex := lit backslash ;; dot <|> dot <|> lit newline.

Definition closing_quote : cont := fun x => rmatch (lit dquote) x Some.

Definition blank (c : ascii) : bool := in_str c t_ignore.

Definition string_token (body : str) (line pos : nat) : LexToken :=
  {| tok_type := "STRING_LITERAL";
     tok_value := body;
     tok_lineno := line;
     tok_lexpos := pos |}.





(** From [self] to [self']: the same buffer, a line counter that did not
    go back, the errors reported so far and then new ones, the same last
    token. *)
Definition keeps (self self' : UCLexer) : Prop :=
  lexdata (lexer self') = lexdata (lexer self)
  /\ lineno (lexer self) <= lineno (lexer self')
  /\ (exists new, errors self' = errors self ++ new)
  /\ last_token self' = last_token self.

(** The characters of the buffer a token covers: those of its value,
    and the two quotes [t_STRING_LITERAL] cut off. *)
Definition tok_span (t : LexToken) : nat :=
  if String.eqb (tok_type t) "STRING_LITERAL"
  then List.length (tok_value t) + 2
  else List.length (tok_value t).

(** The token [t] leaves the round at [pos]: it is typed with a declared
    name, carries the line counter and the position of the round, the
    cursor of [self'] is behind the characters it covers, and its value
    is these characters, without the two quotes for a string literal. *)
Definition token_at (self : UCLexer) (pos : nat) (t : LexToken) (self' : UCLexer) : Prop :=
  let text := firstn (tok_span t) (skipn pos (lexdata (lexer self))) in
  tok_lexpos t = pos
  /\ tok_lineno t = lineno (lexer self)
  /\ in_tokens (tok_type t) = true
  /\ 1 <= tok_span t
  /\ lexpos (lexer self') = pos + tok_span t
  /\ lexpos (lexer self') <= lexlen (lexer self)
  /\ lineno (lexer self') = lineno (lexer self)
  /\ errors self' = errors self
  /\ (tok_type t = "STRING_LITERAL" -> dquote :: tok_value t ++ [dquote] = text)
  /\ (tok_type t <> "STRING_LITERAL" -> tok_value t = text).

(** The tokens lie in the buffer one behind the other, from [from] on:
    each starts at or behind the end of the one before and covers at
    least one character of the buffer; their types are declared and
    their lines do not go back from [line]. *)
Fixpoint in_order (data : str) (from line : nat) (toks : list LexToken) : Prop :=
  match toks with
  | [] => True
  | t :: toks' =>
      in_tokens (tok_type t) = true
      /\ from <= tok_lexpos t
      /\ 1 <= tok_span t
      /\ tok_lexpos t + tok_span t <= List.length data
      /\ line <= tok_lineno t
      /\ in_order data (tok_lexpos t + tok_span t) (tok_lineno t) toks'
  end.

(** The state after [n] characters were passed over, [lines] line breaks
    among them counted, and nothing else happened. *)
Definition skipped (n lines : nat) (self : UCLexer) : UCLexer :=
  {| lexer := {| lexdata := lexdata (lexer self);
                 lexpos := lexpos (lexer self) + n;
                 lineno := lineno (lexer self) + lines |};
     last_token := last_token self;
     errors := errors self |}.

(** [(.|\n)] *)
Definition comment_char : regex := dot <|> lit newline.

(** What follows the body of a block comment: a star, then a slash. *)
Definition comment_close : cont := fun x => rmatch (lit "*" ;; lit "/") x Some.

(** The index of the first star-slash in [x]. *)
Fixpoint closes_at (x : str) : option nat :=
  match x with
  | [] => None
  | c :: x' =>
      match x' with
      | d :: _ =>
          if Ascii.eqb c "*" && Ascii.eqb d "/" then Some 0
          else option_map S (closes_at x')
      | [] => None
      end
  end.

(** The text of the buffer from position [p] up to position [q]. *)
Definition consumed (data : str) (p q : nat) : str := firstn (q - p) (skipn p data).

(** Two states with the same lexer, each having added the same new errors
    to the errors [ea], [eb] it started from. *)
Definition in_step (ea eb : list (message * nat * Z)) (a b : UCLexer) : Prop :=
  lexer a = lexer b
  /\ exists new, errors a = ea ++ new /\ errors b = eb ++ new.

(** The text of a pattern that is a plain sequence of characters. *)
Fixpoint literal_text (r : regex) : option str :=
  match r with
  | Chr (One c) => Some [c]
  | Cat (Chr (One c)) r2 => option_map (cons c) (literal_text r2)
  | _ => None
  end.

Definition followed_by (cs : str) (rest : str) : bool :=
  match rest with
  | d :: _ => in_str d cs
  | [] => false
  end.

(** The one-character texts that, with the character that follows, make
    a longer operator or open a comment. *)
Definition taken_further (text rest : str) : bool :=
  match text with
  | [c] =>
      if in_str c (s "<>=!") then followed_by (s "=") rest
      else if Ascii.eqb c "&" then followed_by (s "&") rest
      else if Ascii.eqb c "/" then followed_by (s "/*") rest
      else false
  | _ => false
  end.

(** One character that is neither a backslash nor a line break, or a
    backslash and one character that is no line break. *)
Definition one_char (body : str) : bool :=
  match body with
  | [c] => negb (Ascii.eqb c backslash) && negb (Ascii.eqb c newline)
  | [b; d] => Ascii.eqb b backslash && negb (Ascii.eqb d newline)
  | _ => false
  end.

(** What may follow the first digit of an integer: digits, and
    underscores each followed by a digit. *)
Fixpoint int_tail (x : str) : bool :=
  match x with
  | [] => true
  | c :: x' =>
      if is_digit c then int_tail x'
      else if Ascii.eqb c "_" then
        match x' with
        | d :: x'' => is_digit d && int_tail x''
        | [] => false
        end
      else false
  end.

Definition int_text (x : str) : bool :=
  match x with
  | c :: x' => is_digit c && int_tail x'
  | [] => false
  end.

(** The integer ends here: what follows is no digit, no underscore, no
    point and no exponent letter. *)
Definition int_ends (rest : str) : bool :=
  match rest with
  | c :: _ => negb (is_digit c) && negb (in_str c (s "_.Ee"))
  | [] => true
  end.

Definition num_char (c : ascii) : bool := is_digit c || Ascii.eqb c "_".

(** [(\d|_\d)] *)
Definition int_more : regex := digit <|> lit "_" ;; digit.

(** The text has a point or an exponent letter behind digits and
    underscores only. *)
Definition has_marker (u : str) : Prop :=
  exists v c w,
    u = v ++ c :: w
    /\ Forall (fun a => num_char a = true) v
    /\ in_str c (s ".Ee") = true.

(** Successive calls of [token()] return the tokens [toks], one each,
    and then the end of input. *)
Fixpoint token_seq (toks : list LexToken) (self : UCLexer) : Prop :=
  match toks with
  | [] => exists self', token self = Some (Ok (None, self'))
  | t :: toks' =>
      exists self',
        token self = Some (Ok (Some t, self')) /\ token_seq toks' self'
  end.

(** What follows is no digit and no underscore. *)
Definition num_ends (rest : str) : bool :=
  match rest with
  | c :: _ => negb (num_char c)
  | [] => true
  end.

Definition no_exponent (rest : str) : bool :=
  match rest with
  | c :: _ => negb (in_str c (s "Ee"))
  | [] => true
  end.

(** The integer part [i] and the fraction [f] of a constant written
    [i.f]: both are integers; the fraction may be missing when there is
    an integer part; without an integer part no exponent may follow. *)
Definition float_shape (i f rest : str) : bool :=
  match i with
  | [] => int_text f && no_exponent rest
  | _ :: _ => int_text i && match f with [] => true | _ :: _ => int_text f end
  end
  && num_ends rest.

(** What follows the integer part in the first form of the pattern, and
    the fraction in the second. *)
Definition after_int_part : cont := fun x => rmatch (lit "." ;; Opt digits) x Some.
Definition after_fraction : cont := fun x => rmatch (Opt (exp_mark ;; digits)) x Some.

(** * Properties *)

(** The order of the rules, by name. *)
Example lexre_order :
  map rname lexre =
  [ "t_STRING_LITERAL"; "t_ID"; "t_NEWLINE"; "t_comment";
    "t_unterminated_string"; "t_unterminated_comment";
    "t_FLOAT_CONST"; "t_CHAR_CONST"; "t_INT_CONST"; "t_OR";
    "t_AND"; "t_EQ"; "t_GE"; "t_LBRACE"; "t_LBRACKET"; "t_LE"; "t_LPAREN";
    "t_NE"; "t_PLUS"; "t_RBRACE"; "t_RBRACKET"; "t_RPAREN"; "t_TIMES";
    "t_ADDRESS"; "t_COMMA"; "t_DIVIDE"; "t_EQUALS"; "t_GT"; "t_LT";
    "t_MINUS"; "t_MOD"; "t_NOT"; "t_SEMI" ].
Proof. vm_compute. reflexivity. Qed.

(** ** The character classes on the 256 code points *)

(** [\d] is the ten digits; [\w] is, below 128, the letters, the digits
    and the underscore, and from 128 on the feminine and the masculine
    ordinal, the micro sign, the superscripts one to three, the three
    fractions and the letters from 192 to 255 but for the multiplication
    and the division sign. *)
Lemma word_characters :
  let all := map ascii_of_nat (seq 0 256) in
  map nat_of_ascii (filter is_digit all) = seq 48 10
  /\ map nat_of_ascii (filter is_word all)
     = seq 48 10 ++ seq 65 26 ++ [95] ++ seq 97 26
       ++ [170; 178; 179; 181; 185; 186; 188; 189; 190]
       ++ seq 192 23 ++ seq 216 31 ++ seq 248 8.
Proof. vm_compute. split; reflexivity. Qed.

(** ** What a pattern can match *)

Lemma star_loop_sound (g : bool) (r : regex) :
  sound_on (rmatch r) r ->
  forall n k x res, star_loop g (rmatch r) k n x = Some res ->
    exists u x', x = u ++ x' /\ lang (Star g r) u /\ k x' = Some res.
Proof.
  intros Hbody n k.
  assert (Hstop : forall x res, k x = Some res ->
            exists u x', x = u ++ x' /\ lang (Star g r) u /\ k x' = Some res).
  { intros x res Hk. exists [], x. auto. }
  induction n as [|n IH]; intros x res H.
  - destruct g; simpl in H.
    + apply Hstop; exact H.
    + destruct (k x) eqn:Hk; [|discriminate].
      inversion H; subst. apply Hstop; exact Hk.
  - assert (Hround :
      rmatch r x (fun x' =>
        if Nat.ltb (List.length x') (List.length x)
        then star_loop g (rmatch r) k n x' else None) = Some res ->
      exists u x', x = u ++ x' /\ lang (Star g r) u /\ k x' = Some res).
    { intros Hr. apply Hbody in Hr.
      destruct Hr as (u & x1 & -> & Hu & Hk).
      destruct (Nat.ltb (List.length x1) (List.length (u ++ x1))); [|discriminate].
      apply IH in Hk. destruct Hk as (v & x2 & -> & Hv & Hk).
      exists (u ++ v), x2. rewrite <- app_assoc. auto. }
    destruct g; simpl in H.
    + match type of H with
      | match ?m with _ => _ end = _ => destruct m eqn:Hm
      end.
      * inversion H; subst. apply Hround; reflexivity.
      * apply Hstop; exact H.
    + destruct (k x) eqn:Hk.
      * inversion H; subst. apply Hstop; exact Hk.
      * apply Hround; exact H.
Qed.

Lemma rmatch_sound (r : regex) : sound_on (rmatch r) r.
Proof.
  induction r as [|cs|r1 IH1 r2 IH2|r1 IH1 r2 IH2|g r IH];
    intros x k res H; simpl in H.
  - exists [], x. auto.
  - destruct x as [|c x]; [discriminate|].
    destruct (accepts cs c) eqn:Hc; [|discriminate].
    exists [c], x. auto.
  - apply IH1 in H. destruct H as (u & x1 & -> & Hu & H).
    apply IH2 in H. destruct H as (v & x2 & -> & Hv & H).
    exists (u ++ v), x2. rewrite <- app_assoc. auto.
  - destruct (rmatch r1 x k) eqn:H1.
    + inversion H; subst. apply IH1 in H1.
      destruct H1 as (u & x1 & -> & Hu & Hk). exists u, x1. auto.
    + apply IH2 in H. destruct H as (u & x1 & -> & Hu & Hk).
      exists u, x1. auto.
  - eapply star_loop_sound; eauto.
Qed.

(** The match [re_match] reports is a prefix of the text and lies in the
    language of the pattern. *)
Lemma re_match_sound (r : regex) (x : str) (n : nat) :
  re_match r x = Some n ->
  n <= List.length x /\ lang r (firstn n x).
Proof.
  unfold re_match. destruct (rmatch r x Some) as [rest|] eqn:H; [|discriminate].
  intros E; inversion E; subst; clear E.
  apply rmatch_sound in H. destruct H as (u & x' & -> & Hu & Hk).
  inversion Hk; subst.
  rewrite length_app.
  replace (List.length u + List.length rest - List.length rest) with (List.length u) by lia.
  split; [lia|].
  rewrite firstn_app, firstn_all, Nat.sub_diag. simpl. rewrite app_nil_r. exact Hu.
Qed.

Lemma lang_nil_nullable (r : regex) (u : str) :
  lang r u -> u = [] -> nullable r = true.
Proof.
  induction 1; intros E; simpl; auto; try discriminate.
  - apply app_eq_nil in E. destruct E. rewrite IHlang1, IHlang2; auto.
  - rewrite IHlang; auto.
  - rewrite IHlang; auto using orb_true_r.
Qed.

Lemma lang_head_starts_with (r : regex) (u : str) :
  lang r u -> forall c u', u = c :: u' -> starts_with r c = true.
Proof.
  induction 1; intros c0 u' E; simpl; try discriminate.
  - inversion E; subst. assumption.
  - destruct u as [|d u].
    + simpl in E. rewrite (lang_nil_nullable _ _ H eq_refl).
      rewrite (IHlang2 _ _ E). apply orb_true_r.
    + simpl in E. inversion E; subst. rewrite (IHlang1 _ _ eq_refl). reflexivity.
  - rewrite (IHlang _ _ E). reflexivity.
  - rewrite (IHlang _ _ E). apply orb_true_r.
  - destruct u as [|d u].
    + simpl in E. apply (IHlang2 _ _ E).
    + simpl in E. inversion E; subst. apply (IHlang1 _ _ eq_refl).
Qed.

Lemma re_match_positive (r : regex) (x : str) (n : nat) :
  nullable r = false -> re_match r x = Some n -> 1 <= n.
Proof.
  intros Hn H. apply re_match_sound in H. destruct H as [Hle H].
  destruct n; [|lia]. simpl in H.
  apply lang_nil_nullable in H; congruence.
Qed.

(** A pattern that cannot start with the character at hand does not
    match. *)
Lemma re_match_wrong_start (r : regex) (c : ascii) (x : str) :
  nullable r = false -> starts_with r c = false -> re_match r (c :: x) = None.
Proof.
  intros Hn Hs. destruct (re_match r (c :: x)) as [n|] eqn:H; [|reflexivity].
  pose proof (re_match_positive _ _ _ Hn H) as Hpos.
  apply re_match_sound in H. destruct H as [_ H].
  destruct n; [lia|]. simpl in H.
  apply lang_head_starts_with with (c := c) (u' := firstn n x) in H; congruence.
Qed.

(** ** The rule table *)

Lemma lexre_eq :
  lexre =
  [ rule_STRING_LITERAL; rule_ID; rule_NEWLINE; rule_comment;
    rule_unterminated_string; rule_unterminated_comment;
    rule_FLOAT_CONST; rule_CHAR_CONST; rule_INT_CONST;
    mkRule "t_OR" (lit "|" ;; lit "|") None;
    mkRule "t_AND" (lit "&" ;; lit "&") None;
    mkRule "t_EQ" (lit "=" ;; lit "=") None;
    mkRule "t_GE" (lit ">" ;; lit "=") None;
    mkRule "t_LBRACE" (lit "{") None;
    mkRule "t_LBRACKET" (lit "[") None;
    mkRule "t_LE" (lit "<" ;; lit "=") None;
    mkRule "t_LPAREN" (lit "(") None;
    mkRule "t_NE" (lit "!" ;; lit "=") None;
    mkRule "t_PLUS" (lit "+") None;
    mkRule "t_RBRACE" (lit "}") None;
    mkRule "t_RBRACKET" (lit "]") None;
    mkRule "t_RPAREN" (lit ")") None;
    mkRule "t_TIMES" (lit "*") None;
    mkRule "t_ADDRESS" (lit "&") None;
    mkRule "t_COMMA" (lit ",") None;
    mkRule "t_DIVIDE" (lit "/") None;
    mkRule "t_EQUALS" (lit "=") None;
    mkRule "t_GT" (lit ">") None;
    mkRule "t_LT" (lit "<") None;
    mkRule "t_MINUS" (lit "-") None;
    mkRule "t_MOD" (lit "%") None;
    mkRule "t_NOT" (lit "!") None;
    mkRule "t_SEMI" (lit ";") None ].
Proof. vm_compute. reflexivity. Qed.

(** The rules with a function are the six [def t_...] of the class. *)
Lemma lexre_cases (r : rule) :
  In r lexre ->
  (func r = None /\ in_tokens (toktype r) = true)
  \/ r = rule_STRING_LITERAL \/ r = rule_ID \/ r = rule_NEWLINE
  \/ r = rule_comment \/ r = rule_unterminated_string
  \/ r = rule_unterminated_comment.
Proof.
  rewrite lexre_eq. simpl.
  intros H.
  repeat (destruct H as [<-|H]; [first [ left; split; reflexivity | tauto ]|]).
  contradiction.
Qed.

(** No rule matches the empty text. *)
Lemma lexre_not_nullable (r : rule) :
  In r lexre -> nullable (pattern r) = false.
Proof.
  intros H.
  assert (A : forallb (fun r => negb (nullable (pattern r))) lexre = true)
    by (vm_compute; reflexivity).
  rewrite forallb_forall in A. apply A in H.
  destruct (nullable (pattern r)); [discriminate|reflexivity].
Qed.

Lemma lexre_match_some (rules : list rule) (x : str) (r : rule) (n : nat) :
  lexre_match rules x = Some (r, n) ->
  exists before after,
    rules = before ++ r :: after
    /\ Forall (fun r' => re_match (pattern r') x = None) before
    /\ re_match (pattern r) x = Some n.
Proof.
  induction rules as [|r0 rules IH]; simpl; [discriminate|].
  destruct (re_match (pattern r0) x) as [m|] eqn:H0.
  - intros E; inversion E; subst. exists [], rules. auto.
  - intros E. destruct (IH E) as (before & after & -> & Hb & Hr).
    exists (r0 :: before), after. auto.
Qed.

Lemma lexre_match_first (rules before after : list rule) (x : str)
    (r : rule) (n : nat) :
  rules = before ++ r :: after ->
  Forall (fun r' => re_match (pattern r') x = None) before ->
  re_match (pattern r) x = Some n ->
  lexre_match rules x = Some (r, n).
Proof.
  intros -> Hb Hr. induction Hb as [|r0 before H0 Hb IH]; simpl.
  - rewrite Hr. reflexivity.
  - rewrite H0. exact IH.
Qed.

Lemma lexre_match_in (x : str) (r : rule) (n : nat) :
  lexre_match lexre x = Some (r, n) ->
  In r lexre /\ 1 <= n <= List.length x /\ lang (pattern r) (firstn n x).
Proof.
  intros H. apply lexre_match_some in H.
  destruct H as (before & after & E & _ & Hr).
  assert (Hin : In r lexre) by (rewrite E; apply in_elt).
  split; [exact Hin|].
  pose proof (re_match_positive _ _ _ (lexre_not_nullable _ Hin) Hr).
  apply re_match_sound in Hr. intuition lia.
Qed.

Lemma lexre_match_none (x : str) :
  lexre_match lexre x = None <->
  Forall (fun r => re_match (pattern r) x = None) lexre.
Proof.
  generalize lexre as rules.
  induction rules as [|r0 rules IH]; simpl.
  - split; auto.
  - destruct (re_match (pattern r0) x) eqn:H0.
    + split; [discriminate|]. intros F. inversion F; congruence.
    + rewrite IH. split; intros F; [constructor; auto|inversion F; auto].
Qed.

(** ** Rounds of the loop *)

Lemma skipn_cons_lt {A : Type} (l : list A) (p : nat) (a : A) (rest : list A) :
  skipn p l = a :: rest -> p < List.length l.
Proof.
  intros H. destruct (le_lt_dec (List.length l) p) as [Hle|Hlt]; [|exact Hlt].
  rewrite (skipn_all2 l Hle) in H. discriminate.
Qed.

Lemma dict_get_cases (d : dict) (k default : string) :
  dict_get d k default = default \/ In (dict_get d k default) (map snd d).
Proof.
  induction d as [|[k' v] d IH]; simpl; [left; reflexivity|].
  destruct (String.eqb k' k); [right; left; reflexivity|].
  destruct IH; [left|right; right]; assumption.
Qed.

(** Whatever [t_ID] makes of a token, its type is a declared one. *)
Lemma t_ID_type_in_tokens (v : string) :
  in_tokens (dict_get keyword_map v "ID") = true.
Proof.
  destruct (dict_get_cases keyword_map v "ID") as [E|Hin].
  - rewrite E. reflexivity.
  - assert (A : forallb in_tokens (map snd keyword_map) = true)
      by (vm_compute; reflexivity).
    rewrite forallb_forall in A. apply A. exact Hin.
Qed.

Lemma token_round_ok (self : UCLexer) (pos : nat) :
  round_ok self pos (token_round self pos).
Proof.
  unfold token_round.
  destruct (skipn pos (lexdata (lexer self))) as [|c rest] eqn:Hskip.
  - simpl. split; [reflexivity|lia].
  - pose proof (skipn_cons_lt _ _ _ _ Hskip) as Hlt.
    destruct (in_str c t_ignore).
    + simpl. unfold lexlen. repeat split; lia.
    + destruct (lexre_match lexre (c :: rest)) as [[r n]|] eqn:Hm.
      * apply lexre_match_in in Hm. destruct Hm as (Hin & Hn & _).
        apply lexre_cases in Hin.
        destruct Hin as [[Hf _]|[->|[->|[->|[->|[->| ->]]]]]].
        -- rewrite Hf. simpl. split; [reflexivity|lia].
        -- simpl. split; [reflexivity|lia].
        -- cbn [func rule_ID t_ID tok_type].
           rewrite t_ID_type_in_tokens. simpl. split; [reflexivity|lia].
        -- simpl. unfold lexlen. repeat split; lia.
        -- simpl. unfold lexlen. repeat split; lia.
        -- simpl. unfold lexlen. repeat split; lia.
        -- simpl. unfold lexlen. repeat split; lia.
      * cbn [t_error tok_value].
        cbn [_error lexer skip set_lexpos with_lexer lexpos lexdata].
        replace (Nat.eqb pos (pos + 1)) with false
          by (symmetry; apply Nat.eqb_neq; lia).
        simpl. unfold lexlen. repeat split; lia.
Qed.

(** With one unit of fuel per character left and one more, the loop
    returns; it returns without an exception and with the cursor moved
    forward. *)
Lemma token_loop_returns (f : nat) :
  forall (self : UCLexer) (pos : nat),
    lexlen (lexer self) <= f + pos ->
    exists t self',
      token_loop (S f) self pos = Some (Ok (t, self'))
      /\ lexdata (lexer self') = lexdata (lexer self)
      /\ pos < lexpos (lexer self').
Proof.
  induction f as [|f IH]; intros self pos Hf.
  - pose proof (token_round_ok self pos) as Hok.
    simpl. destruct (token_round self pos) as [[[t self']|e]|self' pos'];
      simpl in Hok.
    + exists t, self'. tauto.
    + contradiction.
    + lia.
  - pose proof (token_round_ok self pos) as Hok.
    cbn [token_loop].
    destruct (token_round self pos) as [[[t self']|e]|self' pos'];
      simpl in Hok.
    + exists t, self'. tauto.
    + contradiction.
    + destruct Hok as (Hd & Hp & Hl).
      destruct (IH self' pos') as (t & self'' & Ht & Hd' & Hp').
      { unfold lexlen in *. rewrite Hd. lia. }
      exists t, self''. cbn [token_loop] in Ht. rewrite Ht.
      split; [reflexivity|]. split; [congruence|lia].
Qed.

Lemma lex_token_returns (self : UCLexer) :
  exists t self',
    lex_token self = Some (Ok (t, self'))
    /\ lexdata (lexer self') = lexdata (lexer self)
    /\ lexpos (lexer self) < lexpos (lexer self').
Proof.
  unfold lex_token. apply token_loop_returns. lia.
Qed.

Lemma lex_token_at_end (self : UCLexer) :
  lexlen (lexer self) <= lexpos (lexer self) ->
  lex_token self
  = Some (Ok (None, with_lexer (set_lexpos (lexpos (lexer self) + 1)) self)).
Proof.
  intros H. unfold lex_token. cbn [token_loop]. unfold token_round.
  rewrite (skipn_all2 _ H). reflexivity.
Qed.

Lemma token_returns (self : UCLexer) :
  exists t self',
    token self = Some (Ok (t, self'))
    /\ last_token self' = t
    /\ lexdata (lexer self') = lexdata (lexer self)
    /\ lexpos (lexer self) < lexpos (lexer self').
Proof.
  destruct (lex_token_returns self) as (t & self1 & H & Hd & Hp).
  exists t, {| lexer := lexer self1; last_token := t; errors := errors self1 |}.
  unfold token. rewrite H. simpl. repeat split; assumption.
Qed.

Lemma token_at_end (self : UCLexer) :
  lexlen (lexer self) <= lexpos (lexer self) ->
  exists self', token self = Some (Ok (None, self')).
Proof.
  intros H. unfold token. rewrite (lex_token_at_end _ H). eauto.
Qed.

Lemma eof_after_bounded (m : nat) :
  forall self : UCLexer,
    S (lexlen (lexer self)) - lexpos (lexer self) <= m ->
    exists n, n <= m /\ eof_after n self.
Proof.
  induction m as [|m IH]; intros self Hm.
  - exists 0. split; [lia|]. simpl. apply token_at_end. lia.
  - destruct (token_returns self) as (t & self' & Ht & _ & Hd & Hp).
    destruct t as [t|].
    + destruct (IH self') as (n & Hn & He).
      { unfold lexlen in *. rewrite Hd. lia. }
      exists (S n). split; [lia|]. simpl. eauto.
    + exists 0. split; [lia|]. simpl. eauto.
Qed.

Lemma scan_loop_returns (f : nat) :
  forall (self : UCLexer) (output : list LexToken),
    S (lexlen (lexer self)) - lexpos (lexer self) <= f ->
    exists toks self', scan_loop (S f) self output = Some (Ok (toks, self')).
Proof.
  induction f as [|f IH]; intros self output Hf; cbn [scan_loop].
  - rewrite lex_token_at_end by lia. eauto.
  - destruct (lex_token_returns self) as (t & self' & Ht & Hd & Hp).
    rewrite Ht. destruct t as [t|]; [|eauto].
    apply IH. unfold lexlen in *. rewrite Hd. lia.
Qed.



(** C9.  For every scanner state, a call of [token()] returns: it returns
    a token or the end of input, never an exception, and it leaves the
    cursor further on in the same buffer; and after finitely many calls,
    at most one per character left, [token()] returns the end of input.
    [scan] returns on every text as well. *)
Theorem token_always_terminates (self : UCLexer) :
  (exists t self',
     token self = Some (Ok (t, self'))
     /\ lexdata (lexer self') = lexdata (lexer self)
     /\ lexpos (lexer self) < lexpos (lexer self'))
  /\ (exists n,
        n <= S (lexlen (lexer self)) - lexpos (lexer self)
        /\ eof_after n self)
  /\ (forall data, exists toks self', scan data self = Some (Ok (toks, self'))).
Proof.
  split; [|split].
  - destruct (token_returns self) as (t & self' & Ht & _ & Hd & Hp). eauto.
  - apply eof_after_bounded. lia.
  - intros data. unfold scan. apply scan_loop_returns.
    unfold lexlen. simpl. lia.
Qed.

(** ** Frame of [reset_lineno] and [input] *)

(** C8.  [reset_lineno()] sets the line counter to 1 and leaves the buffer
    and the cursor as they are; [input(text)] installs [text], puts the
    cursor at 0 and leaves the line counter as it is.  Neither touches
    the last token or the errors reported so far. *)
Theorem reset_lineno_input_frame (self : UCLexer) (text : str) :
  (lineno (lexer (reset_lineno self)) = 1
   /\ lexdata (lexer (reset_lineno self)) = lexdata (lexer self)
   /\ lexpos (lexer (reset_lineno self)) = lexpos (lexer self))
  /\ (lexdata (lexer (input text self)) = text
      /\ lexpos (lexer (input text self)) = 0
      /\ lineno (lexer (input text self)) = lineno (lexer self))
  /\ (last_token (reset_lineno self) = last_token self
      /\ errors (reset_lineno self) = errors self
      /\ last_token (input text self) = last_token self
      /\ errors (input text self) = errors self).
Proof.
  unfold reset_lineno, input, with_lexer, set_lineno, lexer_input. simpl.
  repeat split; reflexivity.
Qed.

(** ** Which rule is selected *)

(** C1, as stated, fails: on a closed string literal followed by more
    text, rule [t_STRING_LITERAL] is selected with its match of 3
    characters, though [t_unterminated_string], later in the table,
    matches all 5. *)
Lemma longest_match_not_selected :
  ~ longest_match_selected (dquote :: s "a" ++ dquote :: s " b").
Proof.
  intros H.
  specialize (H rule_STRING_LITERAL 3 rule_unterminated_string 5).
  assert (A : 5 <= 3).
  { apply H.
    - vm_compute. reflexivity.
    - rewrite lexre_eq. simpl. tauto.
    - vm_compute. reflexivity. }
  lia.
Qed.

(** ** Identifiers and keywords *)

Lemma star_word_greedy (x : str) :
  forall (rest : str) (n : nat),
    forallb is_word x = true -> word_ends rest = true ->
    List.length (x ++ rest) <= n ->
    star_loop true (rmatch (Chr W)) Some n (x ++ rest) = Some rest.
Proof.
  induction x as [|c x IH]; intros rest n Hx Hrest Hn.
  - simpl. destruct n as [|n]; simpl; [reflexivity|].
    destruct rest as [|d rest]; [reflexivity|].
    simpl in Hrest. destruct (is_word d); [discriminate|reflexivity].
  - simpl in Hx. apply andb_true_iff in Hx. destruct Hx as [Hc Hx].
    destruct n as [|n]; [simpl in Hn; lia|].
    cbn [star_loop app rmatch accepts]. rewrite Hc.
    replace (Nat.ltb (List.length (x ++ rest)) (List.length (c :: x ++ rest)))
      with true by (symmetry; apply Nat.ltb_lt; simpl; lia).
    rewrite IH by (simpl in Hn; auto; lia). reflexivity.
Qed.

Lemma re_ID_matches (c : ascii) (x rest : str) :
  valid_identifier (c :: x) = true -> word_ends rest = true ->
  re_match re_ID (c :: x ++ rest) = Some (S (List.length x)).
Proof.
  intros Hv Hrest. unfold valid_identifier in Hv. apply andb_true_iff in Hv.
  destruct Hv as [Hc Hx].
  unfold re_match, re_ID. cbn [rmatch]. rewrite Hc.
  rewrite star_word_greedy by auto.
  f_equal. cbn [List.length]. rewrite length_app. lia.
Qed.

Lemma word_char_facts (c : ascii) :
  is_word c = true ->
  Ascii.eqb c dquote = false /\ in_str c t_ignore = false.
Proof.
  destruct c as [[] [] [] [] [] [] [] []]; vm_compute; intros H;
    first [discriminate H | split; reflexivity].
Qed.

Lemma dict_get_absent (d : dict) (k default : string) :
  ~ In k (map fst d) -> dict_get d k default = default.
Proof.
  induction d as [|[k' v] d IH]; simpl; intros H; [reflexivity|].
  destruct (String.eqb k' k) eqn:E.
  - apply String.eqb_eq in E. tauto.
  - apply IH. tauto.
Qed.

Lemma keyword_map_keys : map fst keyword_map = rev (map lower keywords).
Proof. vm_compute. reflexivity. Qed.

(** [keyword_map] sends every reserved spelling to its keyword, and no
    keyword is called [ID]. *)
Lemma keyword_map_get (kw : string) :
  In kw keywords ->
  dict_get keyword_map (string_of_list_ascii (s (lower kw))) "ID" = kw
  /\ kw <> "ID"
  /\ valid_identifier (s (lower kw)) = true.
Proof.
  unfold keywords. simpl.
  intros H.
  repeat (destruct H as [<-|H];
          [split; [vm_compute; reflexivity|split; [discriminate|vm_compute; reflexivity]]|]).
  contradiction.
Qed.

(** C5.  Where the text under the cursor is an identifier-shaped word [x]
    (and the word ends there), [token()] returns one token for it, with
    the text [x] itself as value.  Its type is the keyword when [x] is a
    reserved spelling, and then it is not [ID]; it is [ID] when [x] is
    not a reserved spelling. *)
Theorem identifier_or_keyword (self : UCLexer) (x rest : str) :
  skipn (lexpos (lexer self)) (lexdata (lexer self)) = x ++ rest ->
  valid_identifier x = true ->
  word_ends rest = true ->
  exists ty,
    token self
    = Some (Ok (Some (id_token ty x self),
                after_token (id_token ty x self) (List.length x) self))
    /\ (forall kw, In kw keywords -> x = s (lower kw) -> ty = kw /\ ty <> "ID")
    /\ (~ In (string_of_list_ascii x) (map lower keywords) -> ty = "ID").
Proof.
  intros Hskip Hv Hrest.
  exists (dict_get keyword_map (string_of_list_ascii x) "ID").
  split; [|split].
  - destruct x as [|c x]; [discriminate|].
    pose proof (re_ID_matches c x rest Hv Hrest) as Hid.
    assert (Hw : is_word c = true).
    { simpl in Hv. apply andb_true_iff in Hv. destruct Hv as [Hc _].
      apply negb_true_iff, orb_false_iff in Hc. destruct Hc as [_ Hc].
      apply negb_false_iff in Hc. exact Hc. }
    destruct (word_char_facts c Hw) as [Hq Hign].
    assert (Hm : lexre_match lexre ((c :: x) ++ rest) = Some (rule_ID, S (List.length x))).
    { eapply (lexre_match_first lexre [rule_STRING_LITERAL]).
      - rewrite lexre_eq. reflexivity.
      - constructor; [|constructor].
        apply re_match_wrong_start; [reflexivity|].
        simpl. rewrite Hq. reflexivity.
      - exact Hid. }
    unfold token, lex_token. cbn [token_loop]. unfold token_round.
    rewrite Hskip. cbn [app] in *. rewrite Hign, Hm.
    cbn [func rule_ID t_ID tok_type tok_value].
    replace (firstn (S (List.length x)) (c :: x ++ rest)) with (c :: x).
    2:{ cbn [firstn]. f_equal. rewrite firstn_app, firstn_all, Nat.sub_diag.
        simpl. rewrite app_nil_r. reflexivity. }
    rewrite t_ID_type_in_tokens. reflexivity.
  - intros kw Hin ->. destruct (keyword_map_get kw Hin) as (E & Hne & _).
    rewrite E. auto.
  - intros Hnot. apply dict_get_absent.
    rewrite keyword_map_keys, <- in_rev. exact Hnot.
Qed.

(** [while] is a reserved spelling, [while_] is not; a letter of
    Latin-1, here the e with an acute accent, code point 233, is a word
    character and belongs to the identifier. *)
Lemma identifier_or_keyword_witness :
  (exists ty,
     token (input (s "while (") fresh)
     = Some (Ok (Some (id_token ty (s "while") (input (s "while (") fresh)),
                 after_token (id_token ty (s "while") (input (s "while (") fresh))
                   5 (input (s "while (") fresh)))
     /\ ty = "WHILE" /\ ty <> "ID")
  /\ (exists ty,
        token (input (s "while_") fresh)
        = Some (Ok (Some (id_token ty (s "while_") (input (s "while_") fresh)),
                    after_token (id_token ty (s "while_") (input (s "while_") fresh))
                      6 (input (s "while_") fresh)))
        /\ ty = "ID")
  /\ (let word := "x"%char :: "233"%char :: [] in
      let self := input (word ++ s ";") fresh in
      exists ty,
        token self
        = Some (Ok (Some (id_token ty word self),
                    after_token (id_token ty word self) 2 self))
        /\ ty = "ID").
Proof.
  split; [|split].
  - destruct (identifier_or_keyword (input (s "while (") fresh) (s "while") (s " ("))
      as (ty & Ht & Hkw & _); [reflexivity|reflexivity|reflexivity|].
    exists ty. split; [exact Ht|].
    apply (Hkw "WHILE"); [vm_compute; tauto|reflexivity].
  - destruct (identifier_or_keyword (input (s "while_") fresh) (s "while_") [])
      as (ty & Ht & _ & Hid); [reflexivity|reflexivity|reflexivity|].
    exists ty. split; [exact Ht|].
    apply Hid. vm_compute. intuition discriminate.
  - intros word self.
    destruct (identifier_or_keyword self word (s ";"))
      as (ty & Ht & _ & Hid); [reflexivity|reflexivity|reflexivity|].
    exists ty. split; [exact Ht|].
    apply Hid. vm_compute. intuition discriminate.
Defined.

(** ** Where a returned token comes from *)

Lemma token_round_emits (self : UCLexer) (pos : nat) (t : LexToken) (self' : UCLexer) :
  token_round self pos = Leave (Ok (Some t, self')) ->
  exists r n, emitted_by self t r n.
Proof.
  unfold token_round.
  destruct (skipn pos (lexdata (lexer self))) as [|c rest] eqn:Hskip;
    [discriminate|].
  destruct (in_str c t_ignore); [discriminate|].
  destruct (lexre_match lexre (c :: rest)) as [[r n]|] eqn:Hm.
  - apply lexre_match_in in Hm. destruct Hm as (Hin & Hn & Hl).
    pose proof (lexre_cases r Hin) as Hc.
    destruct Hc as [[Hf _]|[->|[->|[->|[->|[->| ->]]]]]].
    + rewrite Hf. intros E; inversion E; subst; clear E.
      exists r, n. unfold emitted_by, text_at. cbn [tok_lexpos tok_type tok_value].
      rewrite Hskip.
      split; [exact Hin|]. split; [lia|]. split; [exact Hl|]. left. auto.
    + cbn [func rule_STRING_LITERAL t_STRING_LITERAL tok_type toktype].
      cbn. intros E; inversion E; subst; clear E.
      exists rule_STRING_LITERAL, n. unfold emitted_by, text_at.
      cbn [tok_lexpos tok_type tok_value].
      rewrite Hskip.
      split; [exact Hin|]. split; [lia|]. split; [exact Hl|].
      right; left. auto.
    + cbn [func rule_ID t_ID tok_type tok_value]. rewrite t_ID_type_in_tokens.
      intros E; inversion E; subst; clear E.
      exists rule_ID, n. unfold emitted_by, text_at.
      cbn [tok_lexpos tok_type tok_value].
      rewrite Hskip.
      split; [exact Hin|]. split; [lia|]. split; [exact Hl|].
      right; right. auto.
    + simpl. discriminate.
    + simpl. discriminate.
    + simpl. discriminate.
    + simpl. discriminate.
  - cbn [t_error tok_value].
    destruct (Nat.eqb _ _); discriminate.
Qed.

Lemma emitted_by_same_data (self self0 : UCLexer) (t : LexToken) (r : rule) (n : nat) :
  lexdata (lexer self0) = lexdata (lexer self) ->
  emitted_by self0 t r n -> emitted_by self t r n.
Proof.
  unfold emitted_by, text_at. intros ->. tauto.
Qed.

Lemma token_loop_emits (fuel : nat) :
  forall (self : UCLexer) (pos : nat) (t : LexToken) (self' : UCLexer),
    token_loop fuel self pos = Some (Ok (Some t, self')) ->
    exists r n, emitted_by self t r n.
Proof.
  induction fuel as [|fuel IH]; intros self pos t self' H; [discriminate|].
  cbn [token_loop] in H.
  pose proof (token_round_ok self pos) as Hok.
  destruct (token_round self pos) as [[[t0 self0]|e]|self0 pos0] eqn:Hr;
    simpl in Hok.
  - inversion H; subst. eapply token_round_emits; eauto.
  - contradiction.
  - destruct Hok as (Hd & _). apply IH in H. destruct H as (r & n & H).
    exists r, n. eapply emitted_by_same_data; eauto.
Qed.

Lemma token_emits (self : UCLexer) (t : LexToken) (self' : UCLexer) :
  token self = Some (Ok (Some t, self')) ->
  exists r n, emitted_by self t r n.
Proof.
  unfold token.
  destruct (lex_token self) as [[[t0 self0]|e]|] eqn:H; try discriminate.
  intros E; inversion E; subst.
  unfold lex_token in H. eapply token_loop_emits; eauto.
Qed.

(** ** Character constants and string literals *)

Lemma lang_lit_inv (c : ascii) (u : str) : lang (lit c) u -> u = [c].
Proof.
  unfold lit. intros H. inversion H as [|cs c0 E| | | | |]; subst.
  simpl in E. apply Ascii.eqb_eq in E. subst. reflexivity.
Qed.

Lemma lang_cat_inv (r1 r2 : regex) (u : str) :
  lang (r1 ;; r2) u -> exists v w, u = v ++ w /\ lang r1 v /\ lang r2 w.
Proof. intros H. inversion H; subst. eauto. Qed.

Lemma lang_alt_inv (r1 r2 : regex) (u : str) :
  lang (r1 <|> r2) u -> lang r1 u \/ lang r2 u.
Proof. intros H. inversion H; subst; auto. Qed.

Lemma lang_chr_inv (cs : charset) (u : str) :
  lang (Chr cs) u -> exists c, u = [c] /\ accepts cs c = true.
Proof. intros H. inversion H; subst. eauto. Qed.

(** One round of the body of a character constant reads something. *)
Lemma lang_char_body_nonempty (u : str) :
  lang (lit backslash ;; dot <|> dot) u -> u <> [].
Proof.
  intros H. apply lang_alt_inv in H. destruct H as [H|H].
  - apply lang_cat_inv in H. destruct H as (v & w & -> & Hv & _).
    apply lang_lit_inv in Hv. subst. discriminate.
  - apply lang_chr_inv in H. destruct H as (c & -> & _). discriminate.
Qed.

Lemma lang_CHAR_CONST (u : str) :
  lang re_CHAR_CONST u ->
  exists body, body <> [] /\ u = squote :: body ++ [squote].
Proof.
  unfold re_CHAR_CONST. intros H.
  apply lang_cat_inv in H. destruct H as (q1 & u1 & -> & Hq1 & H).
  apply lang_cat_inv in H. destruct H as (body & q2 & -> & Hb & Hq2).
  apply lang_lit_inv in Hq1, Hq2. subst.
  exists body. split; [|reflexivity].
  unfold Plus in Hb. apply lang_cat_inv in Hb.
  destruct Hb as (v & w & -> & Hv & _).
  apply lang_char_body_nonempty in Hv.
  destruct v; [congruence|discriminate].
Qed.

Lemma lang_STRING_LITERAL (u : str) :
  lang re_STRING_LITERAL u ->
  exists body, u = dquote :: body ++ [dquote].
Proof.
  unfold re_STRING_LITERAL. intros H.
  apply lang_cat_inv in H. destruct H as (q1 & u1 & -> & Hq1 & H).
  apply lang_cat_inv in H. destruct H as (body & q2 & -> & _ & Hq2).
  apply lang_lit_inv in Hq1, Hq2. subst.
  exists body. reflexivity.
Qed.

Lemma strip_ends_quoted (q : ascii) (body : str) :
  strip_ends (q :: body ++ [q]) = body.
Proof. unfold strip_ends. simpl. apply removelast_last. Qed.

(** [t_ID] makes an [ID] or a keyword of its token, nothing else. *)
Lemma t_ID_type_cases (v : string) :
  dict_get keyword_map v "ID" = "ID" \/ In (dict_get keyword_map v "ID") keywords.
Proof.
  destruct (dict_get_cases keyword_map v "ID") as [E|Hin]; [left; exact E|].
  right. revert Hin. generalize (dict_get keyword_map v "ID"). intros ty.
  vm_compute. tauto.
Qed.

(** The rule behind a token typed [CHAR_CONST], or [STRING_LITERAL]. *)
Lemma emitted_CHAR_CONST (self : UCLexer) (t : LexToken) (r : rule) (n : nat) :
  emitted_by self t r n -> tok_type t = "CHAR_CONST" ->
  r = rule_CHAR_CONST /\ tok_value t = text_at self t n.
Proof.
  intros (Hin & _ & _ & [(Hf & Ht & Hv)|[(-> & Ht & _)|(-> & Ht & _)]]) Hty.
  - split; [|exact Hv]. rewrite Ht in Hty. clear - Hin Hf Hty.
    rewrite lexre_eq in Hin. simpl in Hin.
    repeat (destruct Hin as [<-|Hin];
            [first [reflexivity | discriminate Hty | discriminate Hf]|]).
    contradiction.
  - congruence.
  - rewrite Ht in Hty.
    destruct (t_ID_type_cases (string_of_list_ascii (tok_value t))) as [E|Hk].
    + congruence.
    + rewrite Hty in Hk. vm_compute in Hk. intuition discriminate.
Qed.

Lemma emitted_STRING_LITERAL (self : UCLexer) (t : LexToken) (r : rule) (n : nat) :
  emitted_by self t r n -> tok_type t = "STRING_LITERAL" ->
  r = rule_STRING_LITERAL /\ tok_value t = strip_ends (text_at self t n).
Proof.
  intros (Hin & _ & _ & [(Hf & Ht & Hv)|[(-> & Ht & Hv)|(-> & Ht & _)]]) Hty.
  - exfalso. rewrite Ht in Hty. clear - Hin Hf Hty.
    rewrite lexre_eq in Hin. simpl in Hin.
    repeat (destruct Hin as [<-|Hin];
            [first [discriminate Hty | discriminate Hf]|]).
    contradiction.
  - auto.
  - rewrite Ht in Hty.
    destruct (t_ID_type_cases (string_of_list_ascii (tok_value t))) as [E|Hk].
    + congruence.
    + rewrite Hty in Hk. vm_compute in Hk. intuition discriminate.
Qed.

Lemma text_at_length (self : UCLexer) (t : LexToken) (n : nat) :
  n <= List.length (skipn (tok_lexpos t) (lexdata (lexer self))) ->
  List.length (text_at self t n) = n.
Proof. intros H. unfold text_at. rewrite length_firstn. lia. Qed.

(** C3, as stated, fails: the token of the character constant ['a'] has
    the three characters ['a'] as value, quotes included. *)
Lemma char_const_keeps_quotes : ~ char_const_quotes_stripped.
Proof.
  intros H.
  specialize (H (input (s "'a'") fresh)
                (mkTok "CHAR_CONST" (s "'a'") 1 0)
                (after_token (mkTok "CHAR_CONST" (s "'a'") 1 0) 3
                   (input (s "'a'") fresh))).
  assert (A : token (input (s "'a'") fresh)
              = Some (Ok (Some (mkTok "CHAR_CONST" (s "'a'") 1 0),
                          after_token (mkTok "CHAR_CONST" (s "'a'") 1 0) 3
                            (input (s "'a'") fresh))))
    by (vm_compute; reflexivity).
  specialize (H A eq_refl). vm_compute in H. discriminate H.
Qed.

(** C3 (amended).  A token typed [CHAR_CONST] has as value the text it
    was cut from, unchanged and with its quotes: a quote, at least one
    character, a quote.  A token typed [STRING_LITERAL] has as value the
    text between the two double quotes it was cut from, unchanged (no
    escape is decoded).  A string literal may be empty, and may run over
    several lines. *)
Theorem literal_token_values :
  (forall self t self',
     token self = Some (Ok (Some t, self')) ->
     (tok_type t = "CHAR_CONST" ->
      exists body,
        body <> []
        /\ tok_value t = squote :: body ++ [squote]
        /\ tok_value t = text_at self t (List.length (tok_value t)))
     /\ (tok_type t = "STRING_LITERAL" ->
         dquote :: tok_value t ++ [dquote]
         = text_at self t (List.length (tok_value t) + 2)))
  /\ (let text := [dquote; dquote] in
      let t := mkTok "STRING_LITERAL" [] 1 0 in
      token (input text fresh)
      = Some (Ok (Some t, after_token t 2 (input text fresh))))
  /\ (let body := s "a\n" ++ newline :: s "b" in
      let text := dquote :: body ++ [dquote] in
      let t := mkTok "STRING_LITERAL" body 1 0 in
      token (input text fresh)
      = Some (Ok (Some t, after_token t 7 (input text fresh)))).
Proof.
  split; [|split; vm_compute; reflexivity].
  intros self t self' H.
  apply token_emits in H. destruct H as (r & n & He).
  pose proof He as (Hin & Hn & Hl & _).
  pose proof (text_at_length self t n Hn) as Hlen.
  split; intros Hty.
  - destruct (emitted_CHAR_CONST _ _ _ _ He Hty) as [-> Hv].
    apply lang_CHAR_CONST in Hl. destruct Hl as (body & Hb & E).
    exists body. rewrite Hv. split; [exact Hb|]. split; [exact E|].
    rewrite Hlen. reflexivity.
  - destruct (emitted_STRING_LITERAL _ _ _ _ He Hty) as [-> Hv].
    apply lang_STRING_LITERAL in Hl. destruct Hl as (body & E).
    rewrite Hv, E, strip_ends_quoted.
    rewrite <- E. f_equal.
    rewrite <- Hlen, E. simpl. rewrite !length_app. simpl. lia.
Qed.

(** The character constant ['a'] and the string literal holding [a]. *)
Lemma literal_token_values_witness :
  (exists body,
     body <> [] /\ s "'a'" = squote :: body ++ [squote])
  /\ dquote :: s "a" ++ [dquote]
     = firstn 3 (dquote :: s "a" ++ [dquote]).
Proof.
  destruct literal_token_values as (H & _ & _).
  split.
  - destruct (H (input (s "'a'") fresh)
                (mkTok "CHAR_CONST" (s "'a'") 1 0)
                (after_token (mkTok "CHAR_CONST" (s "'a'") 1 0) 3
                   (input (s "'a'") fresh)))
      as [Hc _]; [vm_compute; reflexivity|].
    destruct (Hc eq_refl) as (body & Hb & E & _).
    exists body. split; [exact Hb|exact E].
  - destruct (H (input (dquote :: s "a" ++ [dquote]) fresh)
                (mkTok "STRING_LITERAL" (s "a") 1 0)
                (after_token (mkTok "STRING_LITERAL" (s "a") 1 0) 3
                   (input (dquote :: s "a" ++ [dquote]) fresh)))
      as [_ Hs]; [vm_compute; reflexivity|].
    exact (Hs eq_refl).
Defined.

(** ** String literals end at the first closing quote *)

Lemma star_loop_lazy_stop (body : str -> cont -> option str) (k : cont)
    (n : nat) (x res : str) :
  k x = Some res -> star_loop false body k n x = Some res.
Proof. intros H. destruct n; simpl; rewrite H; reflexivity. Qed.

Lemma star_loop_lazy_step (body : str -> cont -> option str) (k : cont)
    (n : nat) (x : str) :
  k x = None ->
  star_loop false body k (S n) x
  = body x (fun x' =>
      if Nat.ltb (List.length x') (List.length x)
      then star_loop false body k n x' else None).
Proof. intros H. simpl. rewrite H. reflexivity. Qed.

Lemma closing_quote_other (c : ascii) (x : str) :
  Ascii.eqb c dquote = false -> closing_quote (c :: x) = None.
Proof. intros H. unfold closing_quote. simpl. rewrite H. reflexivity. Qed.

Lemma ltb_tail (c : ascii) (x : str) :
  Nat.ltb (List.length x) (List.length (c :: x)) = true.
Proof. apply Nat.ltb_lt. simpl. lia. Qed.

Lemma ltb_tail2 (c d : ascii) (x : str) :
  Nat.ltb (List.length x) (List.length (c :: d :: x)) = true.
Proof. apply Nat.ltb_lt. simpl. lia. Qed.

(** One round of the body of a string, case by case. *)
Lemma string_char_step (k : cont) (c : ascii) (x : str) :
  rmatch string_char (c :: x) k
  = match
      (if Ascii.eqb c backslash then
         match x with
         | d :: x' => if negb (Ascii.eqb d newline) then k x' else None
         | [] => None
         end
       else None)
    with
    | Some res => Some res
    | None =>
        match (if negb (Ascii.eqb c newline) then k x else None) with
        | Some res => Some res
        | None => if Ascii.eqb c newline then k x else None
        end
    end.
Proof. reflexivity. Qed.

(** The lazy repetition stops at the quote that closes the body. *)
Lemma lazy_body_stops (m : nat) :
  forall (body rest : str) (n : nat),
    List.length body <= m ->
    closed_body body = true ->
    List.length (body ++ dquote :: rest) <= n ->
    star_loop false (rmatch string_char) closing_quote n (body ++ dquote :: rest)
    = Some rest.
Proof.
  induction m as [|m IH]; intros body rest n Hm Hc Hn.
  - destruct body; [|simpl in Hm; lia].
    apply star_loop_lazy_stop. reflexivity.
  - destruct body as [|c body].
    { apply star_loop_lazy_stop. reflexivity. }
    cbn [closed_body] in Hc. cbn [app] in *.
    destruct (Ascii.eqb c dquote) eqn:Hq; [discriminate|].
    destruct n as [|n]; [simpl in Hn; lia|].
    rewrite star_loop_lazy_step by (apply closing_quote_other; exact Hq).
    rewrite string_char_step.
    destruct (Ascii.eqb c backslash) eqn:Hb.
    + apply Ascii.eqb_eq in Hb. subst c.
      destruct body as [|d body]; [discriminate|].
      cbn [app] in *.
      destruct (Ascii.eqb d newline) eqn:Hd; cbn [negb].
      * apply Ascii.eqb_eq in Hd. subst d.
        change (Ascii.eqb backslash newline) with false. cbn [negb].
        rewrite ltb_tail.
        destruct n as [|n]; [simpl in Hn; lia|].
        rewrite star_loop_lazy_step by reflexivity.
        rewrite string_char_step.
        change (Ascii.eqb newline backslash) with false.
        change (Ascii.eqb newline newline) with true.
        cbn [negb]. rewrite ltb_tail.
        rewrite IH; auto; simpl in *; lia.
      * rewrite ltb_tail2, IH; auto; simpl in *; lia.
    + destruct (Ascii.eqb c newline) eqn:Hd; cbn [negb];
        rewrite ltb_tail, IH; auto; simpl in *; lia.
Qed.

Lemma re_STRING_LITERAL_unfold (x : str) :
  rmatch re_STRING_LITERAL (dquote :: x) Some
  = star_loop false (rmatch string_char) closing_quote (List.length x) x.
Proof. reflexivity. Qed.

Lemma re_STRING_LITERAL_matches (body rest : str) :
  closed_body body = true ->
  re_match re_STRING_LITERAL (dquote :: body ++ dquote :: rest)
  = Some (List.length body + 2).
Proof.
  intros Hc. unfold re_match. rewrite re_STRING_LITERAL_unfold.
  rewrite (lazy_body_stops (List.length body)) by auto.
  f_equal. cbn [List.length]. rewrite length_app. cbn [List.length]. lia.
Qed.

Lemma skipn_succ_cons {A : Type} (l : list A) (p : nat) (a : A) (rest : list A) :
  skipn p l = a :: rest -> skipn (p + 1) l = rest.
Proof.
  revert l. induction p as [|p IH]; intros l H.
  - simpl in H. subst. reflexivity.
  - destruct l as [|b l]; [discriminate|]. simpl in *. apply IH. exact H.
Qed.

(** Blanks under the cursor cost one round each. *)
Lemma token_loop_skips_blanks (blanks : str) :
  forall (f : nat) (self : UCLexer) (pos : nat) (x : str),
    forallb blank blanks = true ->
    skipn pos (lexdata (lexer self)) = blanks ++ x ->
    token_loop (List.length blanks + f) self pos
    = token_loop f self (pos + List.length blanks)
    /\ skipn (pos + List.length blanks) (lexdata (lexer self)) = x.
Proof.
  induction blanks as [|c blanks IH]; intros f self pos x Hb Hskip.
  - simpl. rewrite Nat.add_0_r. auto.
  - simpl in Hb. apply andb_true_iff in Hb. destruct Hb as [Hc Hb].
    cbn [app] in Hskip.
    pose proof (skipn_succ_cons _ _ _ _ Hskip) as Hnext.
    destruct (IH f self (pos + 1) x Hb Hnext) as [E1 E2].
    cbn [List.length Nat.add token_loop]. unfold token_round at 1.
    rewrite Hskip. unfold blank in Hc. rewrite Hc.
    replace (pos + S (List.length blanks)) with (pos + 1 + List.length blanks) by lia.
    auto.
Qed.

Lemma firstn_quoted (body rest : str) :
  firstn (List.length body + 2) (dquote :: body ++ dquote :: rest)
  = dquote :: body ++ [dquote].
Proof.
  replace (List.length body + 2) with (S (List.length body + 1)) by lia.
  cbn [firstn]. f_equal.
  change (dquote :: rest) with ([dquote] ++ rest). rewrite app_assoc.
  rewrite firstn_app.
  replace (List.length body + 1 - List.length (body ++ [dquote])) with 0
    by (rewrite length_app; simpl; lia).
  rewrite firstn_all2 by (rewrite length_app; simpl; lia).
  simpl. apply app_nil_r.
Qed.

(** A complete string literal under the cursor, after blanks or none:
    [Lexer.token()] returns it, cut at its closing quote. *)
Lemma lex_token_string_literal (self : UCLexer) (blanks body rest : str) :
  skipn (lexpos (lexer self)) (lexdata (lexer self))
  = blanks ++ dquote :: body ++ dquote :: rest ->
  forallb blank blanks = true ->
  closed_body body = true ->
  lex_token self
  = Some (Ok (Some (string_token body (lineno (lexer self))
                      (lexpos (lexer self) + List.length blanks)),
              with_lexer (set_lexpos (lexpos (lexer self) + List.length blanks
                                      + (List.length body + 2))) self)).
Proof.
  intros Hskip Hb Hc. unfold lex_token.
  assert (Hlen : lexlen (lexer self) - lexpos (lexer self)
                 = List.length blanks + List.length (dquote :: body ++ dquote :: rest)).
  { unfold lexlen. rewrite <- length_skipn, Hskip, length_app. reflexivity. }
  rewrite Hlen.
  replace (S (List.length blanks + List.length (dquote :: body ++ dquote :: rest)))
    with (List.length blanks + S (List.length (dquote :: body ++ dquote :: rest)))
    by lia.
  destruct (token_loop_skips_blanks blanks
              (S (List.length (dquote :: body ++ dquote :: rest)))
              self (lexpos (lexer self)) _ Hb Hskip) as [E Hq].
  rewrite E. cbn [token_loop]. unfold token_round. rewrite Hq.
  change (in_str dquote t_ignore) with false. cbv iota.
  rewrite (lexre_match_first lexre [] (tl lexre) _ rule_STRING_LITERAL (List.length body + 2));
    [ | rewrite lexre_eq; reflexivity | constructor
      | apply re_STRING_LITERAL_matches; exact Hc ].
  cbn [func rule_STRING_LITERAL t_STRING_LITERAL tok_type tok_value tok_lineno tok_lexpos].
  rewrite firstn_quoted, strip_ends_quoted.
  reflexivity.
Qed.


Lemma token_of_lex_token (self : UCLexer) (t : option LexToken) (self' : UCLexer) :
  lex_token self = Some (Ok (t, self')) ->
  token self
  = Some (Ok (t, {| lexer := lexer self'; last_token := t; errors := errors self' |})).
Proof. intros H. unfold token. rewrite H. reflexivity. Qed.




(** ** Unterminated strings *)

(** Any character is read by one round of [(\\.|.|\n)]; the greedy
    repetition reads the text to its end. *)
Lemma greedy_string_chars (m : nat) :
  forall (x : str) (n : nat),
    List.length x <= m -> List.length x <= n ->
    star_loop true (rmatch string_char) Some n x = Some [].
Proof.
  induction m as [|m IH]; intros x n Hm Hn.
  - destruct x; [|simpl in Hm; lia]. destruct n; reflexivity.
  - destruct x as [|c x]; [destruct n; reflexivity|].
    destruct n as [|n]; [simpl in Hn; lia|].
    cbn [star_loop]. rewrite string_char_step.
    assert (Htail : star_loop true (rmatch string_char) Some n x = Some [])
      by (apply IH; simpl in *; lia).
    destruct (Ascii.eqb c backslash) eqn:Hb.
    + destruct x as [|d x].
      * apply Ascii.eqb_eq in Hb. subst c.
        change (Ascii.eqb backslash newline) with false. cbn [negb].
        rewrite ltb_tail, Htail. reflexivity.
      * destruct (Ascii.eqb d newline) eqn:Hd; cbn [negb].
        -- apply Ascii.eqb_eq in Hb. subst c.
           change (Ascii.eqb backslash newline) with false. cbn [negb].
           rewrite ltb_tail, Htail. reflexivity.
        -- rewrite ltb_tail2, IH by (simpl in *; lia). reflexivity.
    + destruct (Ascii.eqb c newline) eqn:Hd; cbn [negb];
        rewrite ltb_tail, Htail; reflexivity.
Qed.

Lemma re_unterminated_string_matches (x : str) :
  re_match re_unterminated_string (dquote :: x) = Some (S (List.length x)).
Proof.
  unfold re_match.
  change (rmatch re_unterminated_string (dquote :: x) Some)
    with (star_loop true (rmatch string_char) Some (List.length x) x).
  rewrite (greedy_string_chars (List.length x)) by lia.
  reflexivity.
Qed.

(** Without a second double quote the pattern of [t_STRING_LITERAL]
    fails. *)
Lemma re_STRING_LITERAL_fails (x : str) :
  ~ In dquote x -> re_match re_STRING_LITERAL (dquote :: x) = None.
Proof.
  intros Hno. destruct (re_match re_STRING_LITERAL (dquote :: x)) as [n|] eqn:H;
    [|reflexivity].
  exfalso. apply re_match_sound in H. destruct H as [_ H].
  apply lang_STRING_LITERAL in H. destruct H as (body & E).
  destruct n as [|n]; [discriminate|]. cbn [firstn] in E.
  inversion E as [E']. apply Hno.
  assert (Hin : In dquote (firstn n x)) by (rewrite E'; apply in_elt).
  clear - Hin. revert x Hin. induction n as [|n IH]; intros x Hin.
  - contradiction.
  - destruct x as [|c x]; [contradiction|]. simpl in Hin.
    destruct Hin as [->|Hin]; [left; reflexivity|right; apply IH; exact Hin].
Qed.

(** An unterminated string under the cursor: one call of the callback,
    at the position of the opening quote, and the end of input. *)
Lemma lex_token_unterminated_string (self : UCLexer) (x : str) :
  skipn (lexpos (lexer self)) (lexdata (lexer self)) = dquote :: x ->
  ~ In dquote x ->
  let pos := lexpos (lexer self) in
  let tok := {| tok_type := "unterminated_string";
                tok_value := dquote :: x;
                tok_lineno := lineno (lexer self);
                tok_lexpos := pos |} in
  lex_token self
  = Some (Ok (None,
       {| lexer := set_lexpos (pos + S (List.length x) + 1 + 1) (lexer self);
          last_token := last_token self;
          errors := errors self
                    ++ [(Unterminated_string, lineno (lexer self),
                         find_tok_column self tok)] |})).
Proof.
  intros Hskip Hno pos tok.
  assert (Hlen : lexlen (lexer self) = pos + S (List.length x)).
  { unfold lexlen. pose proof (length_skipn pos (lexdata (lexer self))) as E.
    fold pos in Hskip. rewrite Hskip in E. cbn [List.length] in E.
    pose proof (skipn_cons_lt _ _ _ _ Hskip). lia. }
  unfold lex_token. fold pos. rewrite Hlen.
  replace (S (pos + S (List.length x) - pos)) with (S (S (List.length x))) by lia.
  cbn [token_loop]. unfold token_round at 1. fold pos in Hskip. rewrite Hskip.
  change (in_str dquote t_ignore) with false. cbv iota.
  rewrite (lexre_match_first lexre
             [rule_STRING_LITERAL; rule_ID; rule_NEWLINE; rule_comment]
             (skipn 5 lexre) (dquote :: x) rule_unterminated_string
             (S (List.length x))).
  2:{ rewrite lexre_eq. reflexivity. }
  2:{ constructor; [apply re_STRING_LITERAL_fails; exact Hno|].
      repeat (constructor; [apply re_match_wrong_start; reflexivity|]).
      constructor. }
  2:{ apply re_unterminated_string_matches. }
  cbn [func rule_unterminated_string t_unterminated_string].
  replace (firstn (S (List.length x)) (dquote :: x)) with (dquote :: x)
    by (cbn [firstn]; rewrite firstn_all; reflexivity).
  unfold token_round, _error, _make_tok_location, find_tok_column.
  cbn [with_lexer lexer skip set_lexpos lexpos lexdata lineno tok_lineno
       tok_lexpos errors last_token fst snd].
  rewrite skipn_all2 by (fold (lexlen (lexer self)); lia).
  reflexivity.
Qed.

(** C7.  On a text that opens a string with a double quote and holds no
    second double quote, [scan] returns no token at all, and the callback
    is called exactly once: with the message of the unterminated string,
    the current line, and column 1, where the opening quote stands.  The
    cursor ends behind the text. *)
Theorem unterminated_string_reported (self : UCLexer) (x : str) :
  ~ In dquote x ->
  scan (dquote :: x) self
  = Some (Ok ([],
       {| lexer := {| lexdata := dquote :: x;
                      lexpos := S (List.length x) + 1 + 1;
                      lineno := lineno (lexer self) |};
          last_token := last_token self;
          errors := errors self
                    ++ [(Unterminated_string, lineno (lexer self), 1%Z)] |})).
Proof.
  intros Hno. unfold scan. cbn [scan_loop].
  rewrite (lex_token_unterminated_string (input (dquote :: x) self) x eq_refl Hno).
  reflexivity.
Qed.

(** The text of the specification: a double quote, then [abc]. *)
Lemma unterminated_string_reported_witness :
  scan (dquote :: s "abc") fresh
  = Some (Ok ([],
       {| lexer := {| lexdata := dquote :: s "abc"; lexpos := 6; lineno := 1 |};
          last_token := None;
          errors := [(Unterminated_string, 1, 1%Z)] |})).
Proof.
  apply (unterminated_string_reported fresh (s "abc")).
  simpl. intuition discriminate.
Defined.

(** ** Two defects, on the texts of the specification *)

(** C2.  The text [/* a], a line break, [b] opens a block comment that
    is never closed.  [scan] returns no token and the callback is called
    once, with the message of the unterminated comment; but the line
    counter is still 1 afterwards: [t_unterminated_comment] does not count
    the line break it read, as [t_comment] does. *)
Theorem unterminated_comment_keeps_lineno :
  scan (s "/* a" ++ newline :: s "b") fresh
  = Some (Ok ([],
       {| lexer := {| lexdata := s "/* a" ++ newline :: s "b";
                      lexpos := 8;
                      lineno := 1 |};
          last_token := None;
          errors := [(Unterminated_comment, 1, 1%Z)] |}))
  /\ scan (s "/* a" ++ newline :: s "b */") fresh
     = Some (Ok ([],
          {| lexer := {| lexdata := s "/* a" ++ newline :: s "b */";
                         lexpos := 10;
                         lineno := 2 |};
             last_token := None;
             errors := [] |})).
Proof. split; vm_compute; reflexivity. Qed.

(** C4.  [123] and [1_234] are one [INT_CONST] each; [12.34], [1.] and
    [.5] are one [FLOAT_CONST] each; a lone [.] matches no rule.  But
    [1e10] is cut into the [INT_CONST] [1] and the identifier [e10], and
    [1.5e-3] into the [FLOAT_CONST] [1.5], the identifier [e], a minus
    and the [INT_CONST] [3]: in the pattern of [t_FLOAT_CONST] the
    exponent is tied to the form [.456] only, and the form without a
    point takes exactly two digits on each side of the [e]. *)
Theorem float_exponent_forms :
  let toks x :=
    match scan (s x) fresh with
    | Some (Ok (l, self)) =>
        Some (map (fun t => (tok_type t, tok_value t)) l, errors self)
    | _ => None
    end in
  toks "123" = Some ([("INT_CONST", s "123")], [])
  /\ toks "1_234" = Some ([("INT_CONST", s "1_234")], [])
  /\ toks "12.34" = Some ([("FLOAT_CONST", s "12.34")], [])
  /\ toks "1." = Some ([("FLOAT_CONST", s "1.")], [])
  /\ toks ".5" = Some ([("FLOAT_CONST", s ".5")], [])
  /\ toks "." = Some ([], [(Illegal_character ".", 1, 1%Z)])
  /\ toks "1e10" = Some ([("INT_CONST", s "1"); ("ID", s "e10")], [])
  /\ toks "1.5e-3"
     = Some ([("FLOAT_CONST", s "1.5"); ("ID", s "e"); ("MINUS", s "-");
              ("INT_CONST", s "3")], [])
  /\ toks "12e34" = Some ([("FLOAT_CONST", s "12e34")], [])
  /\ re_match re_FLOAT_CONST (s "1e10") = None
  /\ re_match re_FLOAT_CONST (s "1.5e-3") = Some 3.
Proof. vm_compute. repeat split; reflexivity. Qed.

(** * Further properties of the scanner *)

(** ** What a call of [token()] keeps *)

Lemma keeps_refl (self : UCLexer) : keeps self self.
Proof.
  unfold keeps. repeat split; auto. exists []. symmetry. apply app_nil_r.
Qed.

Lemma keeps_trans (a b c : UCLexer) : keeps a b -> keeps b c -> keeps a c.
Proof.
  intros (Hd1 & Hl1 & (n1 & He1) & Ht1) (Hd2 & Hl2 & (n2 & He2) & Ht2).
  unfold keeps. repeat split; try congruence; try lia.
  exists (n1 ++ n2). rewrite He2, He1, app_assoc. reflexivity.
Qed.

Lemma keeps_set_lexpos (self : UCLexer) (p : nat) :
  keeps self (with_lexer (set_lexpos p) self).
Proof.
  unfold keeps. simpl. repeat split; auto. exists []. symmetry. apply app_nil_r.
Qed.

Lemma keeps_add_lines (self : UCLexer) (t : LexToken) :
  keeps self (with_lexer (add_lines t) self).
Proof.
  unfold keeps. simpl. repeat split; auto; try lia.
  exists []. symmetry. apply app_nil_r.
Qed.

Lemma keeps_error (self : UCLexer) (msg : message) (t : LexToken) :
  keeps self (_error msg t self).
Proof.
  unfold keeps. simpl. repeat split; auto. eexists. reflexivity.
Qed.

Lemma lexre_plain_type (r : rule) :
  In r lexre -> func r = None -> toktype r <> "STRING_LITERAL".
Proof.
  intros Hin Hf. rewrite lexre_eq in Hin. simpl in Hin.
  repeat (destruct Hin as [<-|Hin];
          [first [discriminate Hf | (vm_compute; discriminate)]|]).
  contradiction.
Qed.

Lemma t_ID_type_not_string (v : string) :
  dict_get keyword_map v "ID" <> "STRING_LITERAL".
Proof.
  intros E. destruct (t_ID_type_cases v) as [H|H]; rewrite E in H.
  - discriminate H.
  - vm_compute in H. intuition discriminate.
Qed.

Lemma token_round_keeps (self : UCLexer) (pos : nat) :
  match token_round self pos with
  | Leave (Ok (None, self')) => keeps self self'
  | Leave (Ok (Some t, self')) => keeps self self' /\ token_at self pos t self'
  | Leave (Raise _) => True
  | Again self' _ => keeps self self'
  end.
Proof.
  unfold token_round.
  destruct (skipn pos (lexdata (lexer self))) as [|c rest] eqn:Hskip.
  - apply keeps_set_lexpos.
  - pose proof (skipn_cons_lt _ _ _ _ Hskip) as Hlt.
    pose proof (length_skipn pos (lexdata (lexer self))) as Hlen.
    rewrite Hskip in Hlen.
    destruct (in_str c t_ignore); [apply keeps_refl|].
    destruct (lexre_match lexre (c :: rest)) as [[r n]|] eqn:Hm.
    + apply lexre_match_in in Hm. destruct Hm as (Hin & Hn & Hlang).
      assert (Hfn : List.length (firstn n (c :: rest)) = n)
        by (rewrite length_firstn; lia).
      assert (Hat : forall ty v,
                in_tokens ty = true ->
                (ty = "STRING_LITERAL"
                 /\ dquote :: v ++ [dquote] = firstn n (c :: rest))
                \/ (ty <> "STRING_LITERAL" /\ v = firstn n (c :: rest)) ->
                token_at self pos (mkTok ty v (lineno (lexer self)) pos)
                  (with_lexer (set_lexpos (pos + n)) self)).
      { intros ty v Hty Hv. unfold token_at, tok_span, lexlen.
        cbn [tok_lexpos tok_lineno tok_type tok_value with_lexer lexer
             set_lexpos lexpos lineno errors lexdata].
        rewrite Hskip.
        destruct Hv as [[-> Hv]|[Hne Hv]].
        - rewrite String.eqb_refl.
          assert (Hl : List.length v + 2 = n).
          { rewrite <- Hfn, <- Hv. cbn [List.length]. rewrite length_app.
            cbn [List.length]. lia. }
          rewrite Hl. repeat split; auto; try lia. congruence.
        - apply String.eqb_neq in Hne. rewrite Hne.
          apply String.eqb_neq in Hne.
          assert (Hl : List.length v = n) by (rewrite Hv; exact Hfn).
          rewrite Hl. repeat split; auto; try lia. congruence. }
      pose proof (lexre_cases r Hin) as Hc.
      destruct Hc as [[Hf Hty]|[->|[->|[->|[->|[->| ->]]]]]].
      * rewrite Hf. split; [apply keeps_set_lexpos|]. apply Hat; [exact Hty|].
        right. split; [apply lexre_plain_type; assumption|reflexivity].
      * cbn [func rule_STRING_LITERAL t_STRING_LITERAL tok_type tok_value
             tok_lineno tok_lexpos].
        change (in_tokens (toktype rule_STRING_LITERAL)) with true. cbv iota.
        split; [apply keeps_set_lexpos|].
        apply Hat; [reflexivity|]. left. split; [reflexivity|].
        cbn [pattern rule_STRING_LITERAL] in Hlang.
        apply lang_STRING_LITERAL in Hlang. destruct Hlang as (body & E).
        rewrite E, strip_ends_quoted. reflexivity.
      * cbn [func rule_ID t_ID tok_type tok_value tok_lineno tok_lexpos].
        rewrite t_ID_type_in_tokens.
        split; [apply keeps_set_lexpos|].
        apply Hat; [apply t_ID_type_in_tokens|].
        right. split; [apply t_ID_type_not_string|reflexivity].
      * cbn [func rule_NEWLINE t_NEWLINE].
        eapply keeps_trans; [apply keeps_set_lexpos|apply keeps_add_lines].
      * cbn [func rule_comment t_comment].
        eapply keeps_trans; [apply keeps_set_lexpos|apply keeps_add_lines].
      * cbn [func rule_unterminated_string t_unterminated_string].
        eapply keeps_trans; [apply keeps_set_lexpos|apply keeps_error].
      * cbn [func rule_unterminated_comment t_unterminated_comment].
        eapply keeps_trans; [apply keeps_set_lexpos|apply keeps_error].
    + cbn [t_error tok_value].
      destruct (Nat.eqb pos _); [exact I|].
      eapply keeps_trans; [apply keeps_set_lexpos|apply keeps_error].
Qed.

Lemma token_at_later (self self0 : UCLexer) (pos : nat) (t : LexToken) (self' : UCLexer) :
  keeps self self0 -> token_at self0 pos t self' ->
  lineno (lexer self) <= tok_lineno t
  /\ tok_lineno t = lineno (lexer self')
  /\ tok_lexpos t = pos
  /\ in_tokens (tok_type t) = true
  /\ 1 <= tok_span t
  /\ lexpos (lexer self') = pos + tok_span t
  /\ lexpos (lexer self') <= lexlen (lexer self)
  /\ (tok_type t = "STRING_LITERAL" ->
      dquote :: tok_value t ++ [dquote] = text_at self t (tok_span t))
  /\ (tok_type t <> "STRING_LITERAL" ->
      tok_value t = text_at self t (tok_span t)).
Proof.
  intros (Hd & Hl & _ & _) (Hp & Hln & Hty & Hs1 & Hpos & Hle & Hl' & _ & Hv1 & Hv2).
  unfold text_at, lexlen in *. rewrite Hd in *. rewrite Hp.
  repeat split; try assumption; try lia.
Qed.

Lemma token_loop_keeps (fuel : nat) :
  forall (self : UCLexer) (pos : nat) (t : option LexToken) (self' : UCLexer),
    token_loop fuel self pos = Some (Ok (t, self')) ->
    keeps self self'
    /\ (forall tok, t = Some tok ->
        exists self0 pos0,
          keeps self self0 /\ pos <= pos0 /\ token_at self0 pos0 tok self').
Proof.
  induction fuel as [|fuel IH]; intros self pos t self' H; [discriminate|].
  cbn [token_loop] in H.
  pose proof (token_round_keeps self pos) as Hk.
  pose proof (token_round_ok self pos) as Hok.
  destruct (token_round self pos) as [[[t0 self0]|e]|self0 pos0] eqn:Hr;
    simpl in Hok.
  - inversion H; subst; clear H. destruct t as [tok|].
    + destruct Hk as [Hk Hat]. split; [exact Hk|].
      intros tok' E. inversion E; subst.
      exists self, pos. split; [apply keeps_refl|]. split; [lia|exact Hat].
    + split; [exact Hk|discriminate].
  - contradiction.
  - apply IH in H. destruct H as [Hk' Ht]. split.
    + eapply keeps_trans; eauto.
    + intros tok E. destruct (Ht tok E) as (s1 & p1 & Hk1 & Hp1 & Hat).
      exists s1, p1. split; [eapply keeps_trans; eauto|]. split; [lia|exact Hat].
Qed.

Lemma lex_token_keeps (self : UCLexer) (t : option LexToken) (self' : UCLexer) :
  lex_token self = Some (Ok (t, self')) ->
  keeps self self'
  /\ (forall tok, t = Some tok ->
      exists self0 pos0,
        keeps self self0 /\ lexpos (lexer self) <= pos0
        /\ token_at self0 pos0 tok self').
Proof. unfold lex_token. apply token_loop_keeps. Qed.

Lemma token_inv (self : UCLexer) (t : option LexToken) (self' : UCLexer) :
  token self = Some (Ok (t, self')) ->
  exists self1,
    lex_token self = Some (Ok (t, self1))
    /\ lexer self' = lexer self1 /\ errors self' = errors self1
    /\ last_token self' = t.
Proof.
  unfold token. destruct (lex_token self) as [[[t0 self0]|e]|]; try discriminate.
  intros E; inversion E; subst. exists self0. auto.
Qed.

(** X1.  A call of [token()] that returns leaves the buffer as it was,
    never moves the line counter back, keeps every error reported before
    the call in place and only adds errors after them, and records what
    it returns as the last token. *)
Theorem token_keeps_history (self : UCLexer) (t : option LexToken) (self' : UCLexer) :
  token self = Some (Ok (t, self')) ->
  lexdata (lexer self') = lexdata (lexer self)
  /\ lineno (lexer self) <= lineno (lexer self')
  /\ (exists new, errors self' = errors self ++ new)
  /\ last_token self' = t.
Proof.
  intros H. apply token_inv in H. destruct H as (self1 & H & El & Ee & Et).
  apply lex_token_keeps in H. destruct H as [(Hd & Hl & Hn & _) _].
  rewrite El, Ee. auto.
Qed.

Lemma token_keeps_history_witness :
  let self := input (s "int @x;") fresh in
  let self' := {| lexer := {| lexdata := s "int @x;"; lexpos := 3; lineno := 1 |};
                  last_token := Some (mkTok "INT" (s "int") 1 0);
                  errors := [] |} in
  lexdata (lexer self') = lexdata (lexer self)
  /\ lineno (lexer self) <= lineno (lexer self')
  /\ (exists new, errors self' = errors self ++ new)
  /\ last_token self' = Some (mkTok "INT" (s "int") 1 0).
Proof.
  intros self self'.
  apply (token_keeps_history self (Some (mkTok "INT" (s "int") 1 0)) self').
  vm_compute. reflexivity.
Defined.

(** X2.  A token returned by [token()] is well formed: its type is one
    of the declared token names; it starts at or after the cursor of the
    call, covers at least one character, and the cursor is left just
    behind the characters it covers, inside the buffer; its line is the
    line counter as the call leaves it, not below the one it found; its
    value is the text it covers, and for a string literal this text
    without its first and last character, the two double quotes. *)
Theorem returned_token_well_formed (self : UCLexer) (t : LexToken) (self' : UCLexer) :
  token self = Some (Ok (Some t, self')) ->
  in_tokens (tok_type t) = true
  /\ lexpos (lexer self) <= tok_lexpos t
  /\ 1 <= tok_span t
  /\ lexpos (lexer self') = tok_lexpos t + tok_span t
  /\ lexpos (lexer self') <= lexlen (lexer self)
  /\ lineno (lexer self) <= tok_lineno t
  /\ tok_lineno t = lineno (lexer self')
  /\ (tok_type t <> "STRING_LITERAL" ->
      tok_value t = text_at self t (tok_span t))
  /\ (tok_type t = "STRING_LITERAL" ->
      tok_value t = strip_ends (text_at self t (tok_span t))
      /\ dquote :: tok_value t ++ [dquote] = text_at self t (tok_span t)).
Proof.
  intros H. apply token_inv in H. destruct H as (self1 & H & El & _ & _).
  apply lex_token_keeps in H. destruct H as [_ H].
  destruct (H t eq_refl) as (self0 & pos0 & Hk & Hp & Hat).
  destruct (token_at_later _ _ _ _ _ Hk Hat)
    as (A & B & C & D & E & F & G & V1 & V2).
  rewrite El, C. repeat split; try assumption; try lia.
  - rewrite <- (V1 H0). symmetry. apply strip_ends_quoted.
  - apply V1. assumption.
Qed.

Lemma returned_token_well_formed_witness :
  let text := s "  " ++ dquote :: s "ab" ++ dquote :: s ";" in
  let self := input text fresh in
  let t := mkTok "STRING_LITERAL" (s "ab") 1 2 in
  in_tokens (tok_type t) = true
  /\ lexpos (lexer self) <= tok_lexpos t
  /\ 1 <= tok_span t
  /\ 6 = tok_lexpos t + tok_span t
  /\ 6 <= lexlen (lexer self)
  /\ lineno (lexer self) <= tok_lineno t
  /\ tok_lineno t = 1
  /\ (tok_type t <> "STRING_LITERAL" ->
      tok_value t = text_at self t (tok_span t))
  /\ (tok_type t = "STRING_LITERAL" ->
      tok_value t = strip_ends (text_at self t (tok_span t))
      /\ dquote :: tok_value t ++ [dquote] = text_at self t (tok_span t)).
Proof.
  intros text self t.
  apply (returned_token_well_formed self t
           {| lexer := {| lexdata := text; lexpos := 6; lineno := 1 |};
              last_token := Some t;
              errors := [] |}).
  vm_compute. reflexivity.
Defined.

(** ** The tokens of a scan *)

Lemma scan_loop_in_order (fuel : nat) :
  forall (self : UCLexer) (output toks : list LexToken) (final : UCLexer),
    scan_loop fuel self output = Some (Ok (toks, final)) ->
    keeps self final
    /\ exists new,
         toks = output ++ new
         /\ in_order (lexdata (lexer self)) (lexpos (lexer self))
              (lineno (lexer self)) new.
Proof.
  induction fuel as [|fuel IH]; intros self output toks final H; [discriminate|].
  cbn [scan_loop] in H.
  destruct (lex_token self) as [[[t self1]|e]|] eqn:Ht; try discriminate.
  pose proof (lex_token_keeps _ _ _ Ht) as [Hk Htok].
  destruct t as [t|].
  - apply IH in H. destruct H as (Hk1 & new & -> & Hord).
    split; [eapply keeps_trans; eauto|].
    exists (t :: new). split; [rewrite <- app_assoc; reflexivity|].
    destruct (Htok t eq_refl) as (self0 & pos0 & Hk0 & Hp0 & Hat).
    destruct (token_at_later _ _ _ _ _ Hk0 Hat)
      as (A & B & C & D & E & F & G & _ & _).
    destruct Hk as (Hd & _). unfold lexlen in G.
    rewrite Hd, F, <- B, <- C in Hord.
    cbn [in_order]. repeat split; try assumption; lia.
  - inversion H; subst. split; [exact Hk|].
    exists []. split; [symmetry; apply app_nil_r|exact I].
Qed.

(** X3.  The tokens [scan] returns have declared types and lie in the
    text in the order returned without overlapping: each covers at least
    one character, a string literal its two quotes included, and starts
    at or behind the end of the one before.  Their line numbers never go
    back from the line counter the scan started with; the scan leaves the
    errors reported before it in place, adds its own after them, and
    leaves the text as buffer. *)
Theorem scan_tokens_in_order
    (data : str) (self : UCLexer) (toks : list LexToken) (final : UCLexer) :
  scan data self = Some (Ok (toks, final)) ->
  in_order data 0 (lineno (lexer self)) toks
  /\ lexdata (lexer final) = data
  /\ lineno (lexer self) <= lineno (lexer final)
  /\ exists new, errors final = errors self ++ new.
Proof.
  unfold scan. intros H. apply scan_loop_in_order in H.
  destruct H as ((Hd & Hl & He & _) & new & E & Hord).
  simpl in E. subst new. auto.
Qed.

Lemma scan_tokens_in_order_witness :
  let data := s "x=" ++ dquote :: s "a" ++ dquote :: dquote :: s "b" ++ dquote :: s ";" in
  let toks := [ mkTok "ID" (s "x") 1 0; mkTok "EQUALS" (s "=") 1 1;
                mkTok "STRING_LITERAL" (s "a") 1 2;
                mkTok "STRING_LITERAL" (s "b") 1 5;
                mkTok "SEMI" (s ";") 1 8 ] in
  in_order data 0 1 toks
  /\ data = data
  /\ 1 <= 1
  /\ exists new, @nil (message * nat * Z) = @nil (message * nat * Z) ++ new.
Proof.
  intros data toks.
  apply (scan_tokens_in_order data fresh toks
           {| lexer := {| lexdata := data; lexpos := 10; lineno := 1 |};
              last_token := None;
              errors := [] |}).
  vm_compute. reflexivity.
Defined.

(** ** Columns *)

Lemma rfind_aux_app (c : ascii) (x y : str) :
  forall i last,
    rfind_aux c (x ++ y) i last
    = rfind_aux c y (i + Z.of_nat (List.length x))%Z (rfind_aux c x i last).
Proof.
  induction x as [|d x IH]; intros i last.
  - simpl. rewrite Z.add_0_r. reflexivity.
  - cbn [app rfind_aux List.length]. rewrite IH. f_equal. lia.
Qed.

Lemma rfind_aux_absent (c : ascii) (x : str) :
  forall i last, ~ In c x -> rfind_aux c x i last = last.
Proof.
  induction x as [|d x IH]; intros i last H; [reflexivity|].
  cbn [rfind_aux]. destruct (Ascii.eqb d c) eqn:E.
  - apply Ascii.eqb_eq in E. subst. exfalso. apply H. left. reflexivity.
  - apply IH. intros Hin. apply H. right. exact Hin.
Qed.

Lemma rfind_aux_bounds (c : ascii) (x : str) :
  forall i last,
    (last < i)%Z ->
    (last <= rfind_aux c x i last < i + Z.of_nat (List.length x))%Z.
Proof.
  induction x as [|d x IH]; intros i last H.
  - simpl. lia.
  - cbn [rfind_aux List.length]. destruct (Ascii.eqb d c).
    + specialize (IH (i + 1)%Z i ltac:(lia)). lia.
    + specialize (IH (i + 1)%Z last ltac:(lia)). lia.
Qed.

(** X4.  The column [find_tok_column] computes is 1-based and never
    exceeds the position of the token plus one, whatever the buffer and
    the token. *)
Theorem find_tok_column_bounds (self : UCLexer) (t : LexToken) :
  (1 <= find_tok_column self t <= Z.of_nat (tok_lexpos t) + 1)%Z.
Proof.
  unfold find_tok_column, rfind.
  pose proof (rfind_aux_bounds newline
                (firstn (tok_lexpos t) (lexdata (lexer self))) 0 (-1) ltac:(lia)) as H.
  pose proof (firstn_le_length (tok_lexpos t) (lexdata (lexer self))) as Hl.
  lia.
Qed.

(** X5.  For a token that starts [k] characters into a line (the buffer
    is [pre ++ line ++ rest], where [pre] is empty or ends with a line
    break, [line] holds no line break and has [k] characters, and the
    token is at the end of [line]), [find_tok_column] is [k + 1]. *)
Theorem find_tok_column_in_line
    (self : UCLexer) (t : LexToken) (pre line rest : str) :
  lexdata (lexer self) = pre ++ line ++ rest ->
  pre = [] \/ (exists pre', pre = pre' ++ [newline]) ->
  ~ In newline line ->
  tok_lexpos t = List.length pre + List.length line ->
  find_tok_column self t = (Z.of_nat (List.length line) + 1)%Z.
Proof.
  intros Hd Hpre Hline Hp. unfold find_tok_column, rfind.
  rewrite Hd, Hp, app_assoc.
  rewrite firstn_app.
  replace (List.length pre + List.length line - List.length (pre ++ line)) with 0
    by (rewrite length_app; lia).
  rewrite firstn_all2 by (rewrite length_app; lia).
  cbn [firstn]. rewrite app_nil_r, rfind_aux_app.
  rewrite (rfind_aux_absent newline line _ _ Hline).
  destruct Hpre as [->|(pre' & ->)].
  - simpl. lia.
  - rewrite rfind_aux_app. cbn [rfind_aux].
    change (Ascii.eqb newline newline) with true. cbv iota.
    rewrite length_app. cbn [List.length]. lia.
Qed.

Lemma find_tok_column_in_line_witness :
  find_tok_column (input (s "a;" ++ newline :: s "  @") fresh)
    (mkTok "error" (s "@") 2 5)
  = 3%Z.
Proof.
  apply (find_tok_column_in_line _ _ (s "a;" ++ [newline]) (s "  ") (s "@")).
  - reflexivity.
  - right. exists (s "a;"). reflexivity.
  - simpl. intuition discriminate.
  - reflexivity.
Defined.

(** ** Rounds that return no token *)

Lemma token_loop_more_fuel (f : nat) :
  forall (self : UCLexer) (pos : nat) r (k : nat),
    token_loop f self pos = Some r -> token_loop (f + k) self pos = Some r.
Proof.
  induction f as [|f IH]; intros self pos r k H; [discriminate|].
  cbn [token_loop Nat.add] in *.
  destruct (token_round self pos) as [r0|self0 pos0]; [exact H|].
  apply IH. exact H.
Qed.

(** Any fuel that covers the characters left gives the same result. *)
Lemma token_loop_enough (self : UCLexer) (pos f1 f2 : nat) :
  lexlen (lexer self) <= f1 + pos ->
  lexlen (lexer self) <= f2 + pos ->
  token_loop (S f1) self pos = token_loop (S f2) self pos.
Proof.
  intros H1 H2.
  destruct (token_loop_returns f1 self pos H1) as (t1 & s1 & E1 & _).
  destruct (token_loop_returns f2 self pos H2) as (t2 & s2 & E2 & _).
  destruct (Nat.le_ge_cases f1 f2) as [Hle|Hle].
  - pose proof (token_loop_more_fuel _ _ _ _ (f2 - f1) E1) as E.
    replace (S f1 + (f2 - f1)) with (S f2) in E by lia. congruence.
  - pose proof (token_loop_more_fuel _ _ _ _ (f1 - f2) E2) as E.
    replace (S f2 + (f1 - f2)) with (S f1) in E by lia. congruence.
Qed.

Lemma with_lexer_set_lexpos_twice (self : UCLexer) (p q : nat) :
  with_lexer (set_lexpos p) (with_lexer (set_lexpos q) self)
  = with_lexer (set_lexpos p) self.
Proof. reflexivity. Qed.

(** The loop reads the cursor from its local variable, not from the
    field of the lexer. *)
Lemma token_round_lexpos_field (self : UCLexer) (pos q : nat) :
  match token_round self pos with
  | Leave r => token_round (with_lexer (set_lexpos q) self) pos = Leave r
  | Again self' pos' =>
      (self' = self
       /\ token_round (with_lexer (set_lexpos q) self) pos
          = Again (with_lexer (set_lexpos q) self) pos')
      \/ token_round (with_lexer (set_lexpos q) self) pos = Again self' pos'
  end.
Proof.
  unfold token_round.
  cbn [with_lexer lexer lexdata set_lexpos lineno].
  destruct (skipn pos (lexdata (lexer self))) as [|c rest]; [reflexivity|].
  destruct (in_str c t_ignore); [left; auto|].
  destruct (lexre_match lexre (c :: rest)) as [[r n]|].
  - rewrite !with_lexer_set_lexpos_twice.
    destruct (func r) as [f|]; [|reflexivity].
    destruct (f _ _) as [[[t|] self2]|e]; try reflexivity.
    + destruct (in_tokens (tok_type t)); reflexivity.
    + right. reflexivity.
  - rewrite !with_lexer_set_lexpos_twice.
    destruct (t_error _ _) as [[t self2]|e]; [|reflexivity].
    destruct (Nat.eqb pos (lexpos (lexer self2))); [reflexivity|].
    destruct t; [reflexivity|right; reflexivity].
Qed.

Lemma token_loop_lexpos_field (f : nat) :
  forall (self : UCLexer) (pos q : nat),
    token_loop f (with_lexer (set_lexpos q) self) pos = token_loop f self pos.
Proof.
  induction f as [|f IH]; intros self pos q; [reflexivity|].
  cbn [token_loop].
  pose proof (token_round_lexpos_field self pos q) as H.
  destruct (token_round self pos) as [r|self' pos'].
  - rewrite H. reflexivity.
  - destruct H as [[-> H]|H]; rewrite H; [apply IH|reflexivity].
Qed.

(** When the round at the cursor goes round again, the call returns what
    a call from the state and the position of the next round returns. *)
Lemma lex_token_again (self self2 : UCLexer) (pos2 : nat) :
  token_round self (lexpos (lexer self)) = Again self2 pos2 ->
  lex_token self = lex_token (with_lexer (set_lexpos pos2) self2).
Proof.
  intros Hr.
  pose proof (token_round_ok self (lexpos (lexer self))) as Hok.
  rewrite Hr in Hok. simpl in Hok. destruct Hok as (Hd & Hp & Hl).
  unfold lex_token at 1.
  replace (S (lexlen (lexer self) - lexpos (lexer self)))
    with (S (S (lexlen (lexer self) - lexpos (lexer self) - 1))) by lia.
  cbn [token_loop]. rewrite Hr.
  unfold lex_token. rewrite token_loop_lexpos_field.
  cbn [with_lexer lexer set_lexpos lexpos].
  apply token_loop_enough; unfold lexlen in *; simpl; rewrite ?Hd; lia.
Qed.

Lemma token_of_equal_lex_token (self self2 : UCLexer) :
  lex_token self = lex_token self2 -> token self = token self2.
Proof. intros E. unfold token. rewrite E. reflexivity. Qed.

Lemma skipped_no_line (n : nat) (self : UCLexer) :
  with_lexer (set_lexpos (lexpos (lexer self) + n)) self = skipped n 0 self.
Proof.
  unfold skipped, with_lexer, set_lexpos. rewrite Nat.add_0_r. reflexivity.
Qed.

Lemma lex_token_skips_blanks (blanks : str) :
  forall (self : UCLexer) (x : str),
    forallb blank blanks = true ->
    skipn (lexpos (lexer self)) (lexdata (lexer self)) = blanks ++ x ->
    lex_token self
    = lex_token (with_lexer (set_lexpos (lexpos (lexer self) + List.length blanks)) self).
Proof.
  induction blanks as [|c blanks IH]; intros self x Hb Hskip.
  - cbn [List.length]. rewrite Nat.add_0_r.
    destruct self as [[d p l] lt er]. reflexivity.
  - simpl in Hb. apply andb_true_iff in Hb. destruct Hb as [Hc Hb].
    cbn [app] in Hskip.
    rewrite (lex_token_again self self (lexpos (lexer self) + 1)).
    2:{ unfold token_round. rewrite Hskip. unfold blank in Hc. rewrite Hc.
        reflexivity. }
    rewrite (IH (with_lexer (set_lexpos (lexpos (lexer self) + 1)) self) x Hb).
    2:{ cbn [with_lexer lexer set_lexpos lexpos lexdata].
        apply (skipn_succ_cons _ _ _ _ Hskip). }
    cbn [with_lexer lexer set_lexpos lexpos lexdata List.length].
    replace (lexpos (lexer self) + 1 + List.length blanks)
      with (lexpos (lexer self) + S (List.length blanks)) by lia.
    reflexivity.
Qed.

(** X6.  Blanks and tabs under the cursor are passed over without a
    token, an error or a change of the line counter: [token()] returns
    what it returns with the cursor behind them. *)
Theorem blanks_are_skipped (self : UCLexer) (blanks x : str) :
  skipn (lexpos (lexer self)) (lexdata (lexer self)) = blanks ++ x ->
  forallb blank blanks = true ->
  token self = token (skipped (List.length blanks) 0 self).
Proof.
  intros Hskip Hb. apply token_of_equal_lex_token.
  rewrite <- skipped_no_line. eapply lex_token_skips_blanks; eauto.
Qed.

Lemma blanks_are_skipped_witness :
  token (input (" "%char :: tab :: s " x") fresh)
  = token (skipped 3 0 (input (" "%char :: tab :: s " x") fresh)).
Proof.
  apply (blanks_are_skipped _ [" "%char; tab; " "%char] (s "x")); reflexivity.
Defined.

(** A greedy repetition of one character class reads as long as the
    class accepts. *)
Lemma star_class_greedy (cs : charset) (x : str) :
  forall (rest : str) (n : nat),
    forallb (accepts cs) x = true ->
    match rest with c :: _ => accepts cs c = false | [] => True end ->
    List.length (x ++ rest) <= n ->
    star_loop true (rmatch (Chr cs)) Some n (x ++ rest) = Some rest.
Proof.
  induction x as [|c x IH]; intros rest n Hx Hrest Hn.
  - simpl. destruct n as [|n]; simpl; [reflexivity|].
    destruct rest as [|d rest]; [reflexivity|].
    rewrite Hrest. reflexivity.
  - simpl in Hx. apply andb_true_iff in Hx. destruct Hx as [Hc Hx].
    destruct n as [|n]; [simpl in Hn; lia|].
    cbn [star_loop app rmatch]. rewrite Hc.
    rewrite ltb_tail.
    rewrite IH by (simpl in Hn; auto; lia). reflexivity.
Qed.

Lemma no_newline_all_dot (x : str) :
  ~ In newline x -> forallb (accepts AnyChar) x = true.
Proof.
  induction x as [|c x IH]; intros H; [reflexivity|].
  cbn [forallb]. apply andb_true_iff. split.
  - simpl. destruct (Ascii.eqb c newline) eqn:E; [|reflexivity].
    apply Ascii.eqb_eq in E. subst. exfalso. apply H. left. reflexivity.
  - apply IH. intros G. apply H. right. exact G.
Qed.

Lemma count_absent (c : ascii) (x : str) : ~ In c x -> count c x = 0.
Proof.
  unfold count. induction x as [|d x IH]; intros H; [reflexivity|].
  cbn [filter]. destruct (Ascii.eqb c d) eqn:E.
  - apply Ascii.eqb_eq in E. subst. exfalso. apply H. left. reflexivity.
  - apply IH. intros G. apply H. right. exact G.
Qed.

Lemma count_app (c : ascii) (x y : str) : count c (x ++ y) = count c x + count c y.
Proof. unfold count. rewrite filter_app, length_app. reflexivity. Qed.

Lemma count_repeat (c : ascii) (k : nat) : count c (repeat c k) = k.
Proof.
  unfold count. induction k as [|k IH]; [reflexivity|].
  cbn [repeat filter]. rewrite Ascii.eqb_refl. cbn [List.length]. rewrite IH.
  reflexivity.
Qed.

Lemma firstn_exact {A : Type} (x y : list A) (n : nat) :
  n = List.length x -> firstn n (x ++ y) = x.
Proof.
  intros ->. rewrite firstn_app, firstn_all, Nat.sub_diag. simpl.
  apply app_nil_r.
Qed.

(** *** Line breaks *)

Lemma re_NEWLINE_matches (k : nat) (rest : str) :
  match rest with c :: _ => Ascii.eqb c newline = false | [] => True end ->
  re_match re_NEWLINE (repeat newline (S k) ++ rest) = Some (S k).
Proof.
  intros Hrest. unfold re_match.
  change (rmatch re_NEWLINE (repeat newline (S k) ++ rest) Some)
    with (star_loop true (rmatch (Chr (One newline))) Some
            (List.length (repeat newline k ++ rest)) (repeat newline k ++ rest)).
  rewrite star_class_greedy; auto.
  - f_equal. cbn [repeat app List.length]. rewrite length_app, repeat_length. lia.
  - clear. induction k as [|k IH]; [reflexivity|]. cbn [repeat forallb].
    rewrite IH. reflexivity.
Qed.

(** X7.  A run of line breaks under the cursor is passed over without a
    token or an error, and the line counter goes up by the number of line
    breaks in the run. *)
Theorem newlines_are_counted (self : UCLexer) (k : nat) (rest : str) :
  skipn (lexpos (lexer self)) (lexdata (lexer self))
  = repeat newline (S k) ++ rest ->
  match rest with c :: _ => Ascii.eqb c newline = false | [] => True end ->
  token self = token (skipped (S k) (S k) self).
Proof.
  intros Hskip Hrest. apply token_of_equal_lex_token.
  set (pos := lexpos (lexer self)) in *.
  set (tok := {| tok_type := toktype rule_NEWLINE;
                 tok_value := firstn (S k) (repeat newline (S k) ++ rest);
                 tok_lineno := lineno (lexer self);
                 tok_lexpos := pos |}).
  rewrite (lex_token_again self
             (with_lexer (add_lines tok) (with_lexer (set_lexpos (pos + S k)) self))
             (pos + S k)).
  - unfold skipped, with_lexer, add_lines, set_lineno, set_lexpos.
    cbn [lexer lexdata lexpos lineno last_token errors tok_value tok].
    rewrite firstn_exact by (rewrite repeat_length; reflexivity).
    rewrite count_repeat. reflexivity.
  - fold pos. unfold token_round. rewrite Hskip.
    cbn [repeat app]. change (in_str newline t_ignore) with false. cbv iota.
    change (newline :: repeat newline k ++ rest)
      with (repeat newline (S k) ++ rest).
    rewrite (lexre_match_first lexre [rule_STRING_LITERAL; rule_ID]
               (skipn 3 lexre) _ rule_NEWLINE (S k)).
    + reflexivity.
    + rewrite lexre_eq. reflexivity.
    + repeat (constructor; [apply re_match_wrong_start; reflexivity|]).
      constructor.
    + apply re_NEWLINE_matches. exact Hrest.
Qed.

Lemma newlines_are_counted_witness :
  token (input (newline :: newline :: s "x") fresh)
  = token (skipped 2 2 (input (newline :: newline :: s "x") fresh)).
Proof.
  apply (newlines_are_counted _ 1 (s "x")); reflexivity.
Defined.

(** *** Comments *)

Lemma re_comment_line_unfold (y : str) :
  rmatch re_comment ("/"%char :: "/"%char :: y) Some
  = star_loop true (rmatch (Chr AnyChar)) Some (List.length y) y.
Proof. reflexivity. Qed.

Lemma re_comment_block_unfold (x : str) :
  rmatch re_comment ("/"%char :: "*"%char :: x) Some
  = match star_loop false (rmatch comment_char) comment_close (List.length x) x with
    | Some res => Some res
    | None => None
    end.
Proof. reflexivity. Qed.

Lemma comment_char_step (k : cont) (c : ascii) (x : str) :
  rmatch comment_char (c :: x) k
  = match (if negb (Ascii.eqb c newline) then k x else None) with
    | Some res => Some res
    | None => if Ascii.eqb c newline then k x else None
    end.
Proof. reflexivity. Qed.

Lemma comment_close_step (c : ascii) (x : str) :
  comment_close (c :: x)
  = if Ascii.eqb c "*" then
      match x with
      | d :: x' => if Ascii.eqb d "/" then Some x' else None
      | [] => None
      end
    else None.
Proof. reflexivity. Qed.

(** The lazy body of a block comment stops at the first star-slash, and
    fails when there is none. *)
Lemma lazy_comment_body (x : str) :
  forall n : nat,
    List.length x <= n ->
    star_loop false (rmatch comment_char) comment_close n x
    = option_map (fun i => skipn (i + 2) x) (closes_at x).
Proof.
  induction x as [|c x IH]; intros n Hn.
  - destruct n; reflexivity.
  - destruct n as [|n]; [simpl in Hn; lia|].
    assert (Hrec : star_loop false (rmatch comment_char) comment_close n x
                   = option_map (fun i => skipn (i + 2) x) (closes_at x))
      by (apply IH; simpl in Hn; lia).
    assert (Hgo : comment_close (c :: x) = None ->
                  star_loop false (rmatch comment_char) comment_close (S n) (c :: x)
                  = option_map (fun i => skipn (i + 2) x) (closes_at x)).
    { intros Hk. rewrite star_loop_lazy_step by exact Hk.
      rewrite comment_char_step, ltb_tail, Hrec.
      destruct (Ascii.eqb c newline); cbn [negb];
        destruct (option_map _ (closes_at x)); reflexivity. }
    assert (Hmap : forall o : option nat,
              option_map (fun i => skipn (i + 2) x) o
              = option_map (fun i => skipn (i + 2) (c :: x)) (option_map S o)).
    { intros [i|]; reflexivity. }
    cbn [closes_at]. destruct x as [|d x'].
    + rewrite Hgo; [reflexivity|].
      rewrite comment_close_step. destruct (Ascii.eqb c "*"); reflexivity.
    + destruct (Ascii.eqb c "*") eqn:Ec; cbn [andb].
      * destruct (Ascii.eqb d "/") eqn:Ed.
        -- apply star_loop_lazy_stop. rewrite comment_close_step, Ec, Ed.
           reflexivity.
        -- rewrite Hgo, Hmap; [reflexivity|].
           rewrite comment_close_step, Ec, Ed. reflexivity.
      * rewrite Hgo, Hmap; [reflexivity|].
        rewrite comment_close_step, Ec. reflexivity.
Qed.

Lemma closes_at_split (x : str) :
  forall i, closes_at x = Some i ->
    i + 2 <= List.length x
    /\ List.length (skipn (i + 2) x) = List.length x - (i + 2).
Proof.
  intros i H. rewrite length_skipn. split; [|reflexivity].
  revert i H. induction x as [|c x IH]; intros i H; [discriminate|].
  cbn [closes_at] in H. destruct x as [|d x']; [discriminate|].
  destruct (Ascii.eqb c "*" && Ascii.eqb d "/").
  - inversion H; subst. simpl. lia.
  - destruct (closes_at (d :: x')) as [j|]; [|discriminate].
    inversion H; subst. specialize (IH j eq_refl). simpl in *. lia.
Qed.

Lemma re_comment_block (x : str) :
  re_match re_comment ("/"%char :: "*"%char :: x)
  = option_map (fun i => i + 4) (closes_at x).
Proof.
  unfold re_match. rewrite re_comment_block_unfold.
  rewrite lazy_comment_body by lia.
  destruct (closes_at x) as [i|] eqn:E; [|reflexivity].
  cbn [option_map]. destruct (closes_at_split x i E) as [Hle Hlen].
  f_equal. cbn [List.length]. rewrite Hlen. lia.
Qed.

Lemma re_comment_line (text rest : str) :
  ~ In newline text ->
  match rest with c :: _ => c = newline | [] => True end ->
  re_match re_comment ("/"%char :: "/"%char :: text ++ rest)
  = Some (List.length text + 2).
Proof.
  intros Ht Hrest. unfold re_match. rewrite re_comment_line_unfold.
  rewrite star_class_greedy.
  - f_equal. cbn [List.length]. rewrite length_app. lia.
  - apply no_newline_all_dot. exact Ht.
  - destruct rest as [|c rest]; [exact I|]. subst c. reflexivity.
  - lia.
Qed.

Lemma comment_rule_selected (c : ascii) (x : str) (n : nat) :
  re_match re_comment ("/"%char :: c :: x) = Some n ->
  lexre_match lexre ("/"%char :: c :: x) = Some (rule_comment, n).
Proof.
  intros H.
  apply (lexre_match_first lexre [rule_STRING_LITERAL; rule_ID; rule_NEWLINE]
           (skipn 4 lexre)).
  - rewrite lexre_eq. reflexivity.
  - repeat (constructor; [apply re_match_wrong_start; reflexivity|]).
    constructor.
  - exact H.
Qed.

(** The round of a comment of [n] characters under the cursor. *)
Lemma lex_token_comment (self : UCLexer) (c : ascii) (x : str) (n : nat) :
  skipn (lexpos (lexer self)) (lexdata (lexer self)) = "/"%char :: c :: x ->
  re_match re_comment ("/"%char :: c :: x) = Some n ->
  lex_token self
  = lex_token (skipped n (count newline (firstn n ("/"%char :: c :: x))) self).
Proof.
  intros Hskip Hm.
  set (pos := lexpos (lexer self)) in *.
  set (tok := {| tok_type := toktype rule_comment;
                 tok_value := firstn n ("/"%char :: c :: x);
                 tok_lineno := lineno (lexer self);
                 tok_lexpos := pos |}).
  rewrite (lex_token_again self
             (with_lexer (add_lines tok) (with_lexer (set_lexpos (pos + n)) self))
             (pos + n)).
  - reflexivity.
  - fold pos. unfold token_round. rewrite Hskip.
    change (in_str "/"%char t_ignore) with false. cbv iota.
    rewrite (comment_rule_selected c x n Hm). reflexivity.
Qed.

(** X8.  A line comment under the cursor (two slashes, then text up to
    the end of the line) is passed over without a token or an error; the
    line counter stays, and the cursor stops before the line break. *)
Theorem line_comment_is_skipped (self : UCLexer) (text rest : str) :
  skipn (lexpos (lexer self)) (lexdata (lexer self))
  = "/"%char :: "/"%char :: text ++ rest ->
  ~ In newline text ->
  match rest with c :: _ => c = newline | [] => True end ->
  token self = token (skipped (List.length text + 2) 0 self).
Proof.
  intros Hskip Ht Hrest. apply token_of_equal_lex_token.
  rewrite (lex_token_comment self _ _ _ Hskip (re_comment_line text rest Ht Hrest)).
  replace (List.length text + 2) with (S (S (List.length text))) by lia.
  cbn [firstn]. rewrite firstn_exact by reflexivity.
  change ("/"%char :: "/"%char :: text) with (s "//" ++ text).
  rewrite count_app, (count_absent _ _ Ht). reflexivity.
Qed.

Lemma line_comment_is_skipped_witness :
  token (input (s "// a" ++ newline :: s "b") fresh)
  = token (skipped 4 0 (input (s "// a" ++ newline :: s "b") fresh)).
Proof.
  apply (line_comment_is_skipped _ (s " a") (newline :: s "b")).
  - reflexivity.
  - simpl. intuition discriminate.
  - reflexivity.
Defined.

(** X9.  A block comment under the cursor ends at the first star-slash
    after its opening: with the first star-slash [i] characters into the
    text that follows the opening, the [i + 4] characters of the comment
    are passed over without a token or an error, and the line counter
    goes up by the number of line breaks among them. *)
Theorem block_comment_is_skipped (self : UCLexer) (x : str) (i : nat) :
  skipn (lexpos (lexer self)) (lexdata (lexer self))
  = "/"%char :: "*"%char :: x ->
  closes_at x = Some i ->
  token self = token (skipped (i + 4) (count newline (firstn i x)) self).
Proof.
  intros Hskip Hc. apply token_of_equal_lex_token.
  assert (Hm : re_match re_comment ("/"%char :: "*"%char :: x) = Some (i + 4))
    by (rewrite re_comment_block, Hc; reflexivity).
  rewrite (lex_token_comment self _ _ _ Hskip Hm).
  f_equal. f_equal.
  replace (i + 4) with (S (S (i + 2))) by lia. cbn [firstn].
  change ("/"%char :: "*"%char :: firstn (i + 2) x)
    with (s "/*" ++ firstn (i + 2) x).
  rewrite count_app. change (count newline (s "/*")) with 0. cbn [Nat.add].
  clear - Hc. revert i Hc.
  induction x as [|c x IH]; intros i Hc; [discriminate|].
  cbn [closes_at] in Hc. destruct x as [|d x']; [discriminate|].
  destruct (Ascii.eqb c "*") eqn:Ec; cbn [andb] in Hc.
  - destruct (Ascii.eqb d "/") eqn:Ed.
    + inversion Hc; subst. apply Ascii.eqb_eq in Ec, Ed. subst. reflexivity.
    + destruct (closes_at (d :: x')) as [j|]; [|discriminate].
      inversion Hc; subst. cbn [Nat.add firstn].
      change (c :: firstn (j + 2) (d :: x')) with ([c] ++ firstn (j + 2) (d :: x')).
      change (c :: firstn j (d :: x')) with ([c] ++ firstn j (d :: x')).
      rewrite !count_app, (IH j eq_refl). reflexivity.
  - destruct (closes_at (d :: x')) as [j|]; [|discriminate].
    inversion Hc; subst. cbn [Nat.add firstn].
    change (c :: firstn (j + 2) (d :: x')) with ([c] ++ firstn (j + 2) (d :: x')).
    change (c :: firstn j (d :: x')) with ([c] ++ firstn j (d :: x')).
    rewrite !count_app, (IH j eq_refl). reflexivity.
Qed.

Lemma block_comment_is_skipped_witness :
  let text := s "/* a" ++ newline :: s "*/ b /* c */" in
  token (input text fresh) = token (skipped 7 1 (input text fresh)).
Proof.
  intros text.
  apply (block_comment_is_skipped (input text fresh)
           (s " a" ++ newline :: s "*/ b /* c */") 3); reflexivity.
Defined.

Lemma greedy_comment_chars (x : str) :
  forall n : nat,
    List.length x <= n ->
    star_loop true (rmatch comment_char) Some n x = Some [].
Proof.
  induction x as [|c x IH]; intros n Hn.
  - destruct n; reflexivity.
  - destruct n as [|n]; [simpl in Hn; lia|].
    cbn [star_loop]. rewrite comment_char_step, ltb_tail.
    rewrite IH by (simpl in Hn; lia).
    destruct (Ascii.eqb c newline); reflexivity.
Qed.

Lemma re_unterminated_comment_matches (x : str) :
  re_match re_unterminated_comment ("/"%char :: "*"%char :: x)
  = Some (S (S (List.length x))).
Proof.
  unfold re_match.
  change (rmatch re_unterminated_comment ("/"%char :: "*"%char :: x) Some)
    with (star_loop true (rmatch comment_char) Some (List.length x) x).
  rewrite greedy_comment_chars by lia. reflexivity.
Qed.

(** X10.  A block comment that is opened under the cursor and never
    closed (no star-slash follows) makes [token()] call the callback
    once, with the message of the unterminated comment, the line counter
    and the column of the opening slash, and return the end of input with
    the cursor behind the buffer.  The line counter is not changed,
    whatever line breaks the comment holds. *)
Theorem unterminated_comment_reported (self : UCLexer) (x : str) :
  skipn (lexpos (lexer self)) (lexdata (lexer self))
  = "/"%char :: "*"%char :: x ->
  closes_at x = None ->
  let pos := lexpos (lexer self) in
  let tok := {| tok_type := "unterminated_comment";
                tok_value := "/"%char :: "*"%char :: x;
                tok_lineno := lineno (lexer self);
                tok_lexpos := pos |} in
  token self
  = Some (Ok (None,
       {| lexer := {| lexdata := lexdata (lexer self);
                      lexpos := pos + S (S (List.length x)) + 1 + 1;
                      lineno := lineno (lexer self) |};
          last_token := None;
          errors := errors self
                    ++ [(Unterminated_comment, lineno (lexer self),
                         find_tok_column self tok)] |})).
Proof.
  intros Hskip Hc pos tok.
  assert (Hlen : lexlen (lexer self) = pos + S (S (List.length x))).
  { unfold lexlen. pose proof (length_skipn pos (lexdata (lexer self))) as E.
    fold pos in Hskip. rewrite Hskip in E. cbn [List.length] in E.
    pose proof (skipn_cons_lt _ _ _ _ Hskip). lia. }
  set (self1 := with_lexer (set_lexpos (pos + S (S (List.length x)))) self).
  assert (Hr : token_round self pos
               = Again (_error Unterminated_comment tok self1)
                   (pos + S (S (List.length x)) + 1)).
  { unfold token_round. fold pos in Hskip. rewrite Hskip.
    change (in_str "/"%char t_ignore) with false. cbv iota.
    rewrite (lexre_match_first lexre
               [rule_STRING_LITERAL; rule_ID; rule_NEWLINE; rule_comment;
                rule_unterminated_string]
               (skipn 6 lexre) _ rule_unterminated_comment
               (S (S (List.length x)))).
    - cbn [func rule_unterminated_comment t_unterminated_comment].
      replace (firstn (S (S (List.length x))) ("/"%char :: "*"%char :: x))
        with ("/"%char :: "*"%char :: x)
        by (cbn [firstn]; rewrite firstn_all; reflexivity).
      reflexivity.
    - rewrite lexre_eq. reflexivity.
    - repeat (constructor; [apply re_match_wrong_start; reflexivity|]).
      constructor; [|constructor; [apply re_match_wrong_start; reflexivity|constructor]].
      cbn [pattern rule_comment]. rewrite re_comment_block, Hc. reflexivity.
    - apply re_unterminated_comment_matches. }
  unfold token. rewrite (lex_token_again self _ _ Hr).
  rewrite lex_token_at_end.
  - reflexivity.
  - unfold lexlen in *. simpl. lia.
Qed.

Lemma unterminated_comment_reported_witness :
  let text := s "x /* a" ++ newline :: s "b *" in
  let self := with_lexer (set_lexpos 2) (input text fresh) in
  token self
  = Some (Ok (None,
       {| lexer := {| lexdata := text; lexpos := 12; lineno := 1 |};
          last_token := None;
          errors := [(Unterminated_comment, 1, 3%Z)] |})).
Proof.
  intros text self.
  apply (unterminated_comment_reported self (s " a" ++ newline :: s "b *"));
    reflexivity.
Defined.

(** ** The line counter *)

Lemma firstn_plus {A : Type} (a b : nat) :
  forall l : list A, firstn (a + b) l = firstn a l ++ firstn b (skipn a l).
Proof.
  induction a as [|a IH]; intros l; [reflexivity|].
  destruct l as [|x l]; simpl.
  - rewrite firstn_nil. reflexivity.
  - rewrite IH. reflexivity.
Qed.

Lemma consumed_split (data : str) (p q r : nat) :
  p <= q -> q <= r ->
  consumed data p r = consumed data p q ++ consumed data q r.
Proof.
  intros Hpq Hqr. unfold consumed.
  replace (r - p) with ((q - p) + (r - q)) by lia.
  rewrite firstn_plus, skipn_skipn.
  replace (q - p + p) with q by lia. reflexivity.
Qed.

Lemma token_loop_advances (fuel : nat) :
  forall (self : UCLexer) (pos : nat) (t : option LexToken) (self' : UCLexer),
    token_loop fuel self pos = Some (Ok (t, self')) ->
    pos < lexpos (lexer self').
Proof.
  induction fuel as [|fuel IH]; intros self pos t self' H; [discriminate|].
  cbn [token_loop] in H.
  pose proof (token_round_ok self pos) as Hok.
  destruct (token_round self pos) as [[[t0 self0]|e]|self0 pos0]; simpl in Hok.
  - inversion H; subst. tauto.
  - contradiction.
  - apply IH in H. lia.
Qed.

Lemma token_round_lines (self : UCLexer) (pos : nat) :
  match token_round self pos with
  | Leave (Ok (_, self')) =>
      lineno (lexer self')
      <= lineno (lexer self)
         + count newline (consumed (lexdata (lexer self)) pos (lexpos (lexer self')))
  | Leave (Raise _) => True
  | Again self' pos' =>
      lineno (lexer self')
      <= lineno (lexer self)
         + count newline (consumed (lexdata (lexer self)) pos pos')
  end.
Proof.
  unfold token_round.
  destruct (skipn pos (lexdata (lexer self))) as [|c rest] eqn:Hskip.
  - simpl. lia.
  - destruct (in_str c t_ignore); [lia|].
    destruct (lexre_match lexre (c :: rest)) as [[r n]|] eqn:Hm.
    + apply lexre_match_in in Hm. destruct Hm as (Hin & Hn & _).
      assert (Hadd : lineno (lexer self)
                     + count newline (firstn n (c :: rest))
                     <= lineno (lexer self)
                        + count newline (consumed (lexdata (lexer self)) pos (pos + n))).
      { unfold consumed. replace (pos + n - pos) with n by lia.
        rewrite Hskip. lia. }
      apply lexre_cases in Hin.
      destruct Hin as [[Hf _]|[->|[->|[->|[->|[->| ->]]]]]].
      * rewrite Hf. simpl. lia.
      * simpl. lia.
      * cbn [func rule_ID t_ID tok_type]. rewrite t_ID_type_in_tokens. simpl. lia.
      * cbn [func rule_NEWLINE t_NEWLINE with_lexer add_lines set_lineno
             set_lexpos lexer lineno lexpos tok_value]. exact Hadd.
      * cbn [func rule_comment t_comment with_lexer add_lines set_lineno
             set_lexpos lexer lineno lexpos tok_value]. exact Hadd.
      * simpl. lia.
      * simpl. lia.
    + cbn [t_error tok_value].
      destruct (Nat.eqb pos _); [exact I|]. simpl. lia.
Qed.

Lemma token_loop_lines (fuel : nat) :
  forall (self : UCLexer) (pos : nat) (t : option LexToken) (self' : UCLexer),
    token_loop fuel self pos = Some (Ok (t, self')) ->
    lineno (lexer self')
    <= lineno (lexer self)
       + count newline (consumed (lexdata (lexer self)) pos (lexpos (lexer self'))).
Proof.
  induction fuel as [|fuel IH]; intros self pos t self' H; [discriminate|].
  cbn [token_loop] in H.
  pose proof (token_round_ok self pos) as Hok.
  pose proof (token_round_lines self pos) as Hl.
  destruct (token_round self pos) as [[[t0 self0]|e]|self0 pos0]; simpl in Hok.
  - inversion H; subst. exact Hl.
  - contradiction.
  - destruct Hok as (Hd & Hp & _).
    pose proof (token_loop_advances _ _ _ _ _ H) as Hadv.
    apply IH in H. rewrite Hd in H.
    rewrite (consumed_split _ pos pos0 (lexpos (lexer self'))) by lia.
    rewrite count_app. lia.
Qed.

(** X12.  The line counter never runs ahead of the text: what a call of
    [token()] adds to it is at most the number of line breaks in the text
    the call moved the cursor over. *)
Theorem lineno_never_overcounts (self : UCLexer) (t : option LexToken) (self' : UCLexer) :
  token self = Some (Ok (t, self')) ->
  lineno (lexer self')
  <= lineno (lexer self)
     + count newline (consumed (lexdata (lexer self))
                        (lexpos (lexer self)) (lexpos (lexer self'))).
Proof.
  intros H. apply token_inv in H. destruct H as (self1 & H & El & _).
  rewrite El. unfold lex_token in H. apply token_loop_lines in H. exact H.
Qed.

Lemma lineno_never_overcounts_witness :
  let text := newline :: dquote :: s "a" ++ newline :: s "b" ++ dquote :: s " c" in
  let t := string_token (s "a" ++ newline :: s "b") 2 1 in
  2 <= 1 + count newline (consumed text 0 6).
Proof.
  intros text t.
  apply (lineno_never_overcounts (input text fresh) (Some t)
           {| lexer := {| lexdata := text; lexpos := 6; lineno := 2 |};
              last_token := Some t;
              errors := [] |}).
  vm_compute. reflexivity.
Defined.

(** X11.  A string literal that runs over several lines is returned as
    one token, and the line counter is left as it was: the line breaks
    inside the literal are not counted. *)
Theorem string_literal_keeps_lineno (self : UCLexer) (body rest : str) (k : nat) :
  skipn (lexpos (lexer self)) (lexdata (lexer self))
  = dquote :: body ++ dquote :: rest ->
  closed_body body = true ->
  count newline body = k ->
  exists self',
    token self
    = Some (Ok (Some (string_token body (lineno (lexer self)) (lexpos (lexer self))),
                self'))
    /\ lineno (lexer self') = lineno (lexer self)
    /\ lexpos (lexer self') = lexpos (lexer self) + List.length body + 2
    /\ errors self' = errors self
    /\ count newline (consumed (lexdata (lexer self))
                        (lexpos (lexer self)) (lexpos (lexer self'))) = k.
Proof.
  intros Hskip Hc Hk.
  pose proof (lex_token_string_literal self [] body rest Hskip eq_refl Hc) as H.
  apply token_of_lex_token in H. cbn [List.length] in H.
  rewrite !Nat.add_0_r in H.
  eexists. split; [exact H|].
  cbn [lexer with_lexer set_lexpos lineno lexpos errors].
  repeat split; try lia.
  unfold consumed. rewrite Hskip.
  replace (lexpos (lexer self) + (List.length body + 2) - lexpos (lexer self))
    with (List.length body + 2) by lia.
  rewrite firstn_quoted.
  change (dquote :: body ++ [dquote]) with ([dquote] ++ body ++ [dquote]).
  rewrite !count_app, Hk. change (count newline [dquote]) with 0. lia.
Qed.

Lemma string_literal_keeps_lineno_witness :
  let text := dquote :: s "a" ++ newline :: s "b" ++ dquote :: s " c" in
  exists self',
    token (input text fresh)
    = Some (Ok (Some (string_token (s "a" ++ newline :: s "b") 1 0), self'))
    /\ lineno (lexer self') = 1
    /\ lexpos (lexer self') = 0 + 3 + 2
    /\ errors self' = []
    /\ count newline (consumed text 0 (lexpos (lexer self'))) = 1.
Proof.
  intros text.
  apply (string_literal_keeps_lineno (input text fresh)
           (s "a" ++ newline :: s "b") (s " c") 1); reflexivity.
Defined.

(** ** A scan depends on the text and the line counter only *)

Lemma in_step_start (a b : UCLexer) :
  lexer a = lexer b -> in_step (errors a) (errors b) a b.
Proof.
  intros H. split; [exact H|]. exists []. rewrite !app_nil_r. auto.
Qed.

Lemma in_step_trans (ea eb : list (message * nat * Z)) (a b a' b' : UCLexer) :
  in_step ea eb a b -> in_step (errors a) (errors b) a' b' -> in_step ea eb a' b'.
Proof.
  intros (_ & n1 & Ea & Eb) (Hl & n2 & Ea' & Eb').
  split; [exact Hl|]. exists (n1 ++ n2).
  rewrite Ea', Eb', Ea, Eb, !app_assoc. auto.
Qed.

Lemma token_round_in_step (a b : UCLexer) (pos : nat) :
  lexer a = lexer b ->
  match token_round a pos, token_round b pos with
  | Leave (Ok (ta, a')), Leave (Ok (tb, b')) =>
      ta = tb /\ in_step (errors a) (errors b) a' b'
  | Leave (Raise e), Leave (Raise e') => e = e'
  | Again a' p, Again b' q => p = q /\ in_step (errors a) (errors b) a' b'
  | _, _ => False
  end.
Proof.
  destruct a as [l lta ea], b as [l' ltb eb]. cbn [lexer]. intros <-.
  assert (Hsame : forall f : Lexer -> Lexer,
            in_step ea eb (with_lexer f (mkUC l lta ea)) (with_lexer f (mkUC l ltb eb))).
  { intros f. split; [reflexivity|]. exists []. simpl. rewrite !app_nil_r. auto. }
  assert (Herr : forall msg t p,
            in_step ea eb
              (_error msg t (with_lexer (set_lexpos p) (mkUC l lta ea)))
              (_error msg t (with_lexer (set_lexpos p) (mkUC l ltb eb)))).
  { intros msg t p. split; [reflexivity|]. eexists. simpl. split; reflexivity. }
  unfold token_round. cbn [lexer errors].
  destruct (skipn pos (lexdata l)) as [|c rest] eqn:Hskip.
  - split; [reflexivity|apply Hsame].
  - destruct (in_str c t_ignore).
    { split; [reflexivity|]. split; [reflexivity|].
      exists []. simpl. rewrite !app_nil_r. auto. }
    destruct (lexre_match lexre (c :: rest)) as [[r n]|] eqn:Hm.
    + apply lexre_match_in in Hm. destruct Hm as (Hin & _).
      apply lexre_cases in Hin.
      destruct Hin as [[Hf _]|[->|[->|[->|[->|[->| ->]]]]]].
      * rewrite Hf. split; [reflexivity|apply Hsame].
      * cbn [func rule_STRING_LITERAL t_STRING_LITERAL tok_type].
        change (in_tokens (toktype rule_STRING_LITERAL)) with true. cbv iota.
        split; [reflexivity|apply Hsame].
      * cbn [func rule_ID t_ID tok_type]. rewrite t_ID_type_in_tokens.
        split; [reflexivity|apply Hsame].
      * cbn [func rule_NEWLINE t_NEWLINE].
        split; [reflexivity|].
        split; [reflexivity|]. exists []. simpl. rewrite !app_nil_r. auto.
      * cbn [func rule_comment t_comment].
        split; [reflexivity|].
        split; [reflexivity|]. exists []. simpl. rewrite !app_nil_r. auto.
      * cbn [func rule_unterminated_string t_unterminated_string].
        split; [reflexivity|apply Herr].
      * cbn [func rule_unterminated_comment t_unterminated_comment].
        split; [reflexivity|apply Herr].
    + cbn [t_error tok_value].
      cbn [_error lexer skip set_lexpos with_lexer lexpos lexdata].
      destruct (Nat.eqb pos (pos + 1)); [reflexivity|].
      split; [reflexivity|apply Herr].
Qed.

Lemma token_loop_in_step (fuel : nat) :
  forall (a b : UCLexer) (pos : nat) (t : option LexToken) (a' : UCLexer),
    lexer a = lexer b ->
    token_loop fuel a pos = Some (Ok (t, a')) ->
    exists b',
      token_loop fuel b pos = Some (Ok (t, b'))
      /\ in_step (errors a) (errors b) a' b'.
Proof.
  induction fuel as [|fuel IH]; intros a b pos t a' Hl H; [discriminate|].
  cbn [token_loop] in *.
  pose proof (token_round_in_step a b pos Hl) as Hr.
  destruct (token_round a pos) as [[[ta a0]|e]|a0 p];
    destruct (token_round b pos) as [[[tb b0]|e']|b0 q];
    try contradiction; try discriminate.
  - destruct Hr as [-> Hs]. inversion H; subst. eauto.
  - destruct Hr as [-> Hs].
    destruct (IH a0 b0 q t a' (proj1 Hs) H) as (b' & Hb & Hs').
    exists b'. split; [exact Hb|]. eapply in_step_trans; eauto.
Qed.

Lemma scan_loop_in_step (fuel : nat) :
  forall (a b : UCLexer) (output toks : list LexToken) (fa : UCLexer),
    lexer a = lexer b ->
    scan_loop fuel a output = Some (Ok (toks, fa)) ->
    exists fb,
      scan_loop fuel b output = Some (Ok (toks, fb))
      /\ in_step (errors a) (errors b) fa fb.
Proof.
  induction fuel as [|fuel IH]; intros a b output toks fa Hl H; [discriminate|].
  cbn [scan_loop] in *.
  destruct (lex_token a) as [[[t a1]|e]|] eqn:Ha; try discriminate.
  unfold lex_token in Ha.
  destruct (token_loop_in_step _ a b _ _ _ Hl Ha) as (b1 & Hb & Hs).
  unfold lex_token. rewrite <- Hl, Hb.
  destruct t as [t|].
  - destruct (IH a1 b1 _ _ _ (proj1 Hs) H) as (fb & Hfb & Hs').
    exists fb. split; [exact Hfb|]. eapply in_step_trans; eauto.
  - inversion H; subst. eauto.
Qed.

(** X13.  What [scan] returns depends on the text and on the line counter
    it starts with, and on nothing else of the lexer: from two states
    with the same line counter it returns the same tokens, leaves the
    same lexer (buffer, cursor, line counter) and adds the same errors,
    whatever the cursor, the buffer, the last token and the errors
    reported before were. *)
Theorem scan_depends_on_text_and_line
    (data : str) (a b : UCLexer) (toks : list LexToken) (fa : UCLexer) :
  lineno (lexer a) = lineno (lexer b) ->
  scan data a = Some (Ok (toks, fa)) ->
  exists fb,
    scan data b = Some (Ok (toks, fb))
    /\ lexer fb = lexer fa
    /\ exists new, errors fa = errors a ++ new /\ errors fb = errors b ++ new.
Proof.
  intros Hl H. unfold scan in *.
  assert (E : lexer (input data a) = lexer (input data b)).
  { unfold input, with_lexer, lexer_input. cbn [lexer]. rewrite Hl. reflexivity. }
  destruct (scan_loop_in_step _ _ _ _ _ _ E H) as (fb & Hfb & Hlx & new & Ea & Eb).
  exists fb. split; [exact Hfb|]. split; [symmetry; exact Hlx|].
  exists new. auto.
Qed.

(** A second scan of [int @x;] by the lexer the first scan left, once
    its line counter is reset. *)
Lemma scan_depends_on_text_and_line_witness :
  let first := {| lexer := {| lexdata := s "int @x;"; lexpos := 8; lineno := 1 |};
                  last_token := None;
                  errors := [(Illegal_character "@"%char, 1, 5%Z)] |} in
  exists fb,
    scan (s "int @x;") (reset_lineno first)
    = Some (Ok ([ mkTok "INT" (s "int") 1 0;
                  mkTok "ID" (s "x") 1 5;
                  mkTok "SEMI" (s ";") 1 6 ], fb))
    /\ lexer fb = lexer first
    /\ exists new,
         errors first = errors fresh ++ new
         /\ errors fb = errors (reset_lineno first) ++ new.
Proof.
  intros first.
  apply (scan_depends_on_text_and_line (s "int @x;") fresh (reset_lineno first)).
  - reflexivity.
  - vm_compute. reflexivity.
Defined.

(** ** Delimiters, comparators, operators and punctuation *)

Lemma rmatch_literal (r : regex) :
  forall (text x : str) (k : cont),
    literal_text r = Some text -> rmatch r (text ++ x) k = k x.
Proof.
  induction r as [|cs|r1 IH1 r2 IH2|r1 IH1 r2 IH2|g r IH]; intros text x k H;
    simpl in H; try discriminate.
  - destruct cs; try discriminate. inversion H; subst.
    simpl. rewrite Ascii.eqb_refl. reflexivity.
  - destruct r1 as [|[c| | | | |]| | |]; try discriminate.
    destruct (literal_text r2) as [t2|]; [|discriminate].
    inversion H; subst. cbn [app rmatch accepts]. rewrite Ascii.eqb_refl.
    apply IH2. reflexivity.
Qed.

Lemma re_match_literal (r : regex) (text x : str) :
  literal_text r = Some text ->
  re_match r (text ++ x) = Some (List.length text).
Proof.
  intros H. unfold re_match. rewrite (rmatch_literal r text x Some H).
  f_equal. rewrite length_app. lia.
Qed.

Lemma lexre_match_skip (r : rule) (rules : list rule) (x : str) :
  re_match (pattern r) x = None ->
  lexre_match (r :: rules) x = lexre_match rules x.
Proof. intros H. simpl. rewrite H. reflexivity. Qed.

Lemma lexre_match_hit (r : rule) (rules : list rule) (x : str) (n : nat) :
  re_match (pattern r) x = Some n ->
  lexre_match (r :: rules) x = Some (r, n).
Proof. intros H. simpl. rewrite H. reflexivity. Qed.

(** A rule that starts like the text but needs a further character the
    text does not offer. *)
Ltac rule_needs_more Hfar :=
  match goal with
  | |- re_match _ (_ :: ?rest) = None =>
      destruct rest as [|d rest']; [reflexivity|];
      cbn in Hfar;
      repeat match type of Hfar with
             | context [Ascii.eqb d ?c] => destruct (Ascii.eqb d c) eqn:?
             end;
      try discriminate Hfar;
      unfold re_match; simpl;
      repeat match goal with
             | E : Ascii.eqb d ?c = _ |- context [Ascii.eqb d ?c] => rewrite E
             end;
      reflexivity
  end.

Ltac rule_misses Hfar :=
  first [ apply re_match_wrong_start; reflexivity | rule_needs_more Hfar ].

Lemma fixed_rule_selected (r : rule) (text rest : str) :
  In r lexre ->
  func r = None ->
  literal_text (pattern r) = Some text ->
  taken_further text rest = false ->
  lexre_match lexre (text ++ rest) = Some (r, List.length text)
  /\ exists c text', text = c :: text' /\ in_str c t_ignore = false.
Proof.
  intros Hin Hf Hlit Hfar.
  rewrite lexre_eq in Hin. simpl in Hin.
  repeat (destruct Hin as [<-|Hin];
    [ first
        [ discriminate Hf
        | discriminate Hlit
        | (cbn in Hlit; inversion Hlit; subst text; clear Hlit;
           split; [|eexists; eexists; split; reflexivity];
           rewrite lexre_eq; cbn [app List.length];
           repeat (rewrite lexre_match_skip by rule_misses Hfar);
           apply lexre_match_hit;
           match goal with
           | |- re_match ?p (?c :: ?d :: ?x) = Some 2 =>
               apply (re_match_literal p [c; d] x); reflexivity
           | |- re_match ?p (?c :: ?x) = Some 1 =>
               apply (re_match_literal p [c] x); reflexivity
           end) ]
    | ]).
  contradiction.
Qed.

(** X14.  Every rule of the table whose pattern is a plain text (the
    delimiters, comparators, operators and punctuation) is recognised
    wherever its text stands under the cursor: [token()] returns one
    token with the name of the rule as type and the text as value, and
    leaves the cursor behind the text.  The one exception is a
    one-character text that the next character turns into a longer
    operator or into the opening of a comment. *)
Theorem fixed_tokens_are_recognised
    (self : UCLexer) (r : rule) (text rest : str) :
  skipn (lexpos (lexer self)) (lexdata (lexer self)) = text ++ rest ->
  In r lexre ->
  func r = None ->
  literal_text (pattern r) = Some text ->
  taken_further text rest = false ->
  let t := {| tok_type := toktype r;
              tok_value := text;
              tok_lineno := lineno (lexer self);
              tok_lexpos := lexpos (lexer self) |} in
  token self = Some (Ok (Some t, after_token t (List.length text) self)).
Proof.
  intros Hskip Hin Hf Hlit Hfar t.
  destruct (fixed_rule_selected r text rest Hin Hf Hlit Hfar)
    as (Hm & c & text' & -> & Hign).
  unfold token, lex_token. cbn [token_loop]. unfold token_round.
  rewrite Hskip. cbn [app] in *. rewrite Hign, Hm, Hf.
  change (c :: text' ++ rest) with ((c :: text') ++ rest).
  rewrite firstn_exact by reflexivity.
  reflexivity.
Qed.

(** [<] before a blank is the token [LT]; before [=] the two characters
    are the token [LE].  The rules the statement covers are 24. *)
Lemma fixed_tokens_are_recognised_witness :
  token (input (s "< 1") fresh)
  = Some (Ok (Some (mkTok "LT" (s "<") 1 0),
              after_token (mkTok "LT" (s "<") 1 0) 1 (input (s "< 1") fresh)))
  /\ token (input (s "<=1") fresh)
     = Some (Ok (Some (mkTok "LE" (s "<=") 1 0),
                 after_token (mkTok "LE" (s "<=") 1 0) 2 (input (s "<=1") fresh)))
  /\ List.length
       (filter (fun r => match func r, literal_text (pattern r) with
                         | None, Some _ => true
                         | _, _ => false
                         end) lexre) = 24.
Proof.
  split; [|split; [|vm_compute; reflexivity]].
  - apply (fixed_tokens_are_recognised (input (s "< 1") fresh)
             (mkRule "t_LT" (lit "<") None) (s "<") (s " 1")); try reflexivity.
    rewrite lexre_eq. simpl. tauto.
  - apply (fixed_tokens_are_recognised (input (s "<=1") fresh)
             (mkRule "t_LE" (lit "<" ;; lit "=") None) (s "<=") (s "1"));
      try reflexivity.
    rewrite lexre_eq. simpl. tauto.
Defined.

(** ** Character constants *)

Lemma rmatch_CHAR_CONST (body rest : str) :
  one_char body = true ->
  rmatch re_CHAR_CONST (squote :: body ++ squote :: rest) Some = Some rest.
Proof.
  intros H. destruct body as [|b [|d [|e body]]]; try discriminate H.
  - simpl in H. apply andb_true_iff in H. destruct H as [Hb Hn].
    apply negb_true_iff in Hb, Hn.
    simpl. rewrite Hb, Hn. reflexivity.
  - simpl in H. apply andb_true_iff in H. destruct H as [Hb Hn].
    apply negb_true_iff in Hn.
    simpl. rewrite Hb, Hn. reflexivity.
Qed.

(** X15.  A character constant under the cursor (a quote, one character
    or one backslash pair, a quote) is returned as one token of type
    [CHAR_CONST] whose value is the whole text, the two quotes included
    and the backslash pair as written; the cursor is left behind the
    closing quote. *)
Theorem char_constants_are_recognised (self : UCLexer) (body rest : str) :
  skipn (lexpos (lexer self)) (lexdata (lexer self))
  = squote :: body ++ squote :: rest ->
  one_char body = true ->
  let t := {| tok_type := "CHAR_CONST";
              tok_value := squote :: body ++ [squote];
              tok_lineno := lineno (lexer self);
              tok_lexpos := lexpos (lexer self) |} in
  token self = Some (Ok (Some t, after_token t (List.length body + 2) self)).
Proof.
  intros Hskip Hb t.
  assert (Hm : lexre_match lexre (squote :: body ++ squote :: rest)
               = Some (rule_CHAR_CONST, List.length body + 2)).
  { apply (lexre_match_first lexre (firstn 7 lexre) (skipn 8 lexre)).
    - rewrite lexre_eq. reflexivity.
    - rewrite lexre_eq. cbn [firstn].
      repeat (constructor; [apply re_match_wrong_start; reflexivity|]).
      constructor.
    - unfold re_match. cbn [pattern rule_CHAR_CONST].
      rewrite (rmatch_CHAR_CONST body rest Hb).
      f_equal. cbn [List.length]. rewrite length_app. cbn [List.length]. lia. }
  unfold token, lex_token. cbn [token_loop]. unfold token_round.
  rewrite Hskip. change (in_str squote t_ignore) with false. cbv iota.
  rewrite Hm. cbn [func rule_CHAR_CONST].
  replace (firstn (List.length body + 2) (squote :: body ++ squote :: rest))
    with (squote :: body ++ [squote]).
  - reflexivity.
  - replace (List.length body + 2) with (S (List.length body + 1)) by lia.
    cbn [firstn]. f_equal.
    change (squote :: rest) with ([squote] ++ rest). rewrite app_assoc.
    rewrite firstn_exact; [reflexivity|].
    rewrite length_app. reflexivity.
Qed.

Lemma char_constants_are_recognised_witness :
  token (input (s "'\n';") fresh)
  = Some (Ok (Some (mkTok "CHAR_CONST" (s "'\n'") 1 0),
              after_token (mkTok "CHAR_CONST" (s "'\n'") 1 0) 4
                (input (s "'\n';") fresh))).
Proof.
  apply (char_constants_are_recognised (input (s "'\n';") fresh)
           (s "\n") (s ";")); reflexivity.
Defined.

(** ** Integer constants *)

Lemma int_more_step (k : cont) (c : ascii) (x : str) :
  rmatch int_more (c :: x) k
  = match (if is_digit c then k x else None) with
    | Some res => Some res
    | None =>
        if Ascii.eqb c "_" then
          match x with
          | d :: x' => if is_digit d then k x' else None
          | [] => None
          end
        else None
    end.
Proof. reflexivity. Qed.

Lemma greedy_int_tail (m : nat) :
  forall (x rest : str) (n : nat),
    List.length x <= m ->
    int_tail x = true -> int_ends rest = true ->
    List.length (x ++ rest) <= n ->
    star_loop true (rmatch int_more) Some n (x ++ rest) = Some rest.
Proof.
  induction m as [|m IH]; intros x rest n Hm Hx Hrest Hn.
  - destruct x; [|simpl in Hm; lia]. clear Hm Hx. cbn [app].
    destruct n as [|n]; [reflexivity|].
    cbn [star_loop]. destruct rest as [|c rest]; [reflexivity|].
    rewrite int_more_step. simpl in Hrest.
    apply andb_true_iff in Hrest. destruct Hrest as [Hd Hu].
    apply negb_true_iff in Hd. apply negb_true_iff, orb_false_iff in Hu.
    destruct Hu as [Hu _]. rewrite Hd, Hu. reflexivity.
  - destruct x as [|c x].
    { apply (IH [] rest n); auto. simpl. lia. }
    destruct n as [|n]; [simpl in Hn; lia|].
    cbn [int_tail] in Hx. cbn [app star_loop]. rewrite int_more_step.
    destruct (is_digit c) eqn:Hc.
    + rewrite ltb_tail, IH; auto; simpl in *; lia.
    + destruct (Ascii.eqb c "_") eqn:Hu; [|discriminate].
      destruct x as [|d x]; [discriminate|].
      apply andb_true_iff in Hx. destruct Hx as [Hd Hx].
      cbn [app]. rewrite Hd, ltb_tail2, IH; auto; simpl in *; lia.
Qed.

Lemma re_INT_CONST_matches (x rest : str) :
  int_text x = true -> int_ends rest = true ->
  re_match re_INT_CONST (x ++ rest) = Some (List.length x).
Proof.
  intros Hx Hrest. destruct x as [|c x]; [discriminate|].
  simpl in Hx. apply andb_true_iff in Hx. destruct Hx as [Hc Hx].
  unfold re_match.
  assert (E : rmatch re_INT_CONST ((c :: x) ++ rest) Some
              = star_loop true (rmatch int_more) Some
                  (List.length (x ++ rest)) (x ++ rest)).
  { cbn [app]. unfold re_INT_CONST, digits. cbn [rmatch digit accepts].
    rewrite Hc. reflexivity. }
  rewrite E, (greedy_int_tail (List.length x)) by auto.
  f_equal. rewrite length_app. lia.
Qed.

Lemma lang_star_forall (P : ascii -> Prop) (g : bool) (r : regex) :
  (forall w, lang r w -> Forall P w) ->
  forall u, lang (Star g r) u -> Forall P u.
Proof.
  intros Hr u H. remember (Star g r) as sr eqn:E.
  induction H; try discriminate.
  - constructor.
  - inversion E; subst. apply Forall_app. split; auto.
Qed.

Lemma lang_digits_chars (u : str) :
  lang digits u -> Forall (fun a => num_char a = true) u.
Proof.
  unfold digits. intros H.
  apply lang_cat_inv in H. destruct H as (v & w & -> & Hv & Hw).
  apply Forall_app. split.
  - apply lang_chr_inv in Hv. destruct Hv as (c & -> & Hc).
    constructor; [|constructor]. unfold num_char. simpl in Hc. rewrite Hc.
    reflexivity.
  - revert Hw. apply lang_star_forall. intros w0 H0.
    apply lang_alt_inv in H0. destruct H0 as [H0|H0].
    + apply lang_chr_inv in H0. destruct H0 as (c & -> & Hc).
      constructor; [|constructor]. unfold num_char. simpl in Hc. rewrite Hc.
      reflexivity.
    + apply lang_cat_inv in H0. destruct H0 as (a & b & -> & Ha & Hb).
      apply lang_lit_inv in Ha. subst a.
      apply lang_chr_inv in Hb. destruct Hb as (c & -> & Hc).
      constructor; [reflexivity|]. constructor; [|constructor].
      unfold num_char. simpl in Hc. rewrite Hc. reflexivity.
Qed.

Lemma lang_opt_digits_chars (u : str) :
  lang (Opt digits) u -> Forall (fun a => num_char a = true) u.
Proof.
  unfold Opt. intros H. apply lang_alt_inv in H. destruct H as [H|H].
  - apply lang_digits_chars. exact H.
  - inversion H. constructor.
Qed.

(** Every text the pattern of [t_FLOAT_CONST] matches has a point or an
    exponent letter behind digits and underscores. *)
Lemma lang_FLOAT_CONST_marker (u : str) : lang re_FLOAT_CONST u -> has_marker u.
Proof.
  unfold re_FLOAT_CONST. intros H.
  apply lang_alt_inv in H. destruct H as [H|H].
  - apply lang_alt_inv in H. destruct H as [H|H].
    + apply lang_cat_inv in H. destruct H as (v & u2 & -> & Hv & H).
      apply lang_cat_inv in H. destruct H as (p & w & -> & Hp & _).
      apply lang_lit_inv in Hp. subst p.
      exists v, "."%char, w. split; [reflexivity|].
      split; [apply lang_digits_chars; exact Hv|reflexivity].
    + apply lang_cat_inv in H. destruct H as (u1 & z & -> & H & _).
      apply lang_cat_inv in H. destruct H as (v & u2 & -> & Hv & H).
      apply lang_cat_inv in H. destruct H as (p & w & -> & Hp & _).
      apply lang_lit_inv in Hp. subst p.
      exists v, "."%char, (w ++ z). split.
      * rewrite <- !app_assoc. reflexivity.
      * split; [apply lang_opt_digits_chars; exact Hv|reflexivity].
  - apply lang_cat_inv in H. destruct H as (d1 & u2 & -> & Hd1 & H).
    apply lang_cat_inv in H. destruct H as (d2 & u3 & -> & Hd2 & H).
    apply lang_cat_inv in H. destruct H as (em & u4 & -> & Hem & _).
    unfold exp_mark in Hem.
    apply lang_cat_inv in Hem. destruct Hem as (e & sg & -> & He & _).
    assert (Hd : Forall (fun a => num_char a = true) (d1 ++ d2)).
    { apply lang_digits_chars. unfold digits.
      constructor; [exact Hd1|].
      rewrite <- (app_nil_r d2). constructor; [exact Hd2|constructor]. }
    apply lang_alt_inv in He.
    destruct He as [He|He]; apply lang_lit_inv in He; subst e.
    + exists (d1 ++ d2), "E"%char, (sg ++ u4). split.
      * rewrite <- !app_assoc. reflexivity.
      * split; [exact Hd|reflexivity].
    + exists (d1 ++ d2), "e"%char, (sg ++ u4). split.
      * rewrite <- !app_assoc. reflexivity.
      * split; [exact Hd|reflexivity].
Qed.

Lemma int_tail_chars (m : nat) :
  forall x : str,
    List.length x <= m -> int_tail x = true ->
    Forall (fun a => num_char a = true) x.
Proof.
  induction m as [|m IH]; intros x Hm Hx.
  - destruct x; [constructor|simpl in Hm; lia].
  - destruct x as [|c x]; [constructor|].
    cbn [int_tail] in Hx. destruct (is_digit c) eqn:Hc.
    + constructor; [unfold num_char; rewrite Hc; reflexivity|].
      apply IH; [simpl in Hm; lia|exact Hx].
    + destruct (Ascii.eqb c "_") eqn:Hu; [|discriminate].
      destruct x as [|d x]; [discriminate|].
      apply andb_true_iff in Hx. destruct Hx as [Hd Hx].
      constructor; [unfold num_char; rewrite Hu; apply orb_true_r|].
      constructor; [unfold num_char; rewrite Hd; reflexivity|].
      apply IH; [simpl in Hm; lia|exact Hx].
Qed.

Lemma num_char_no_marker (c : ascii) :
  num_char c = true -> in_str c (s ".Ee") = false.
Proof.
  destruct c as [[] [] [] [] [] [] [] []]; vm_compute; intros H;
    first [discriminate H | reflexivity].
Qed.

(** A text of digits and underscores, followed by something that is
    neither, has no match of [t_FLOAT_CONST] at its start. *)
Lemma re_FLOAT_CONST_fails (x rest : str) :
  Forall (fun a => num_char a = true) x ->
  int_ends rest = true ->
  re_match re_FLOAT_CONST (x ++ rest) = None.
Proof.
  intros Hx Hrest.
  destruct (re_match re_FLOAT_CONST (x ++ rest)) as [n|] eqn:H; [|reflexivity].
  exfalso. apply re_match_sound in H. destruct H as [_ H].
  apply lang_FLOAT_CONST_marker in H. destruct H as (v & c & w & E & Hv & Hc).
  pose proof (firstn_skipn n (x ++ rest)) as Hsplit.
  rewrite E, <- app_assoc in Hsplit. cbn [app] in Hsplit.
  apply app_eq_app in Hsplit. destruct Hsplit as (l & [[E1 E2]|[E1 E2]]).
  - (* the marker lies behind [x], in [rest] *)
    destruct l as [|a l].
    + simpl in E2. rewrite E2 in Hrest. simpl in Hrest.
      apply andb_true_iff in Hrest. destruct Hrest as [_ Hr].
      apply negb_true_iff in Hr. simpl in Hr, Hc.
      apply orb_false_iff in Hr. destruct Hr as [_ Hr]. congruence.
    + simpl in E2. rewrite E2 in Hrest. subst v. simpl in Hrest.
      apply Forall_app in Hv. destruct Hv as [_ Hv]. inversion Hv as [|? ? Ha _].
      unfold num_char in Ha. apply andb_true_iff in Hrest.
      destruct Hrest as [Hd Hr]. apply negb_true_iff in Hd, Hr.
      simpl in Hr. apply orb_false_iff in Hr. destruct Hr as [Hr _].
      rewrite Hd, Hr in Ha. discriminate.
  - (* the marker lies in [x] *)
    destruct l as [|a l].
    + simpl in E2. rewrite app_nil_r in E1. subst x.
      destruct rest as [|a rest]; [discriminate|]. inversion E2; subst a.
      simpl in Hrest. apply andb_true_iff in Hrest. destruct Hrest as [_ Hr].
      apply negb_true_iff in Hr. simpl in Hr, Hc.
      apply orb_false_iff in Hr. destruct Hr as [_ Hr]. congruence.
    + inversion E2; subst a. subst x.
      apply Forall_app in Hx. destruct Hx as [_ Hx]. inversion Hx as [|? ? Ha _].
      apply num_char_no_marker in Ha. congruence.
Qed.

Lemma digit_char_facts (c : ascii) :
  is_digit c = true ->
  starts_with re_STRING_LITERAL c = false
  /\ starts_with re_ID c = false
  /\ starts_with re_NEWLINE c = false
  /\ starts_with re_comment c = false
  /\ starts_with re_unterminated_string c = false
  /\ starts_with re_unterminated_comment c = false
  /\ starts_with re_CHAR_CONST c = false
  /\ in_str c t_ignore = false.
Proof.
  destruct c as [[] [] [] [] [] [] [] []]; vm_compute; intros H;
    first [discriminate H | repeat split; reflexivity].
Qed.

Lemma int_rule_selected (x rest : str) :
  int_text x = true -> int_ends rest = true ->
  lexre_match lexre (x ++ rest) = Some (rule_INT_CONST, List.length x)
  /\ exists c x', x = c :: x' /\ in_str c t_ignore = false.
Proof.
  intros Hx Hrest. pose proof (re_INT_CONST_matches x rest Hx Hrest) as Hint.
  destruct x as [|c x]; [discriminate|].
  simpl in Hx. apply andb_true_iff in Hx. destruct Hx as [Hc Hx].
  destruct (digit_char_facts c Hc) as (F1 & F2 & F3 & F4 & F5 & F6 & F7 & F8).
  split; [|eauto].
  assert (Hnum : Forall (fun a => num_char a = true) (c :: x)).
  { constructor; [unfold num_char; rewrite Hc; reflexivity|].
    apply (int_tail_chars (List.length x)); auto. }
  apply (lexre_match_first lexre (firstn 8 lexre) (skipn 9 lexre)).
  - rewrite lexre_eq. reflexivity.
  - rewrite lexre_eq. cbn [firstn app].
    repeat (constructor;
            [first [ apply re_match_wrong_start; [reflexivity|assumption]
                   | apply (re_FLOAT_CONST_fails (c :: x) rest Hnum Hrest) ]|]).
    constructor.
  - exact Hint.
Qed.

(** X16.  An integer under the cursor (a digit, then digits and
    underscores each followed by a digit) that ends there (what follows
    is no digit, underscore, point or exponent letter) is returned as one
    token of type [INT_CONST] with the text of the integer, underscores
    included, as value; the cursor is left behind it. *)
Theorem integers_are_recognised (self : UCLexer) (x rest : str) :
  skipn (lexpos (lexer self)) (lexdata (lexer self)) = x ++ rest ->
  int_text x = true ->
  int_ends rest = true ->
  let t := {| tok_type := "INT_CONST";
              tok_value := x;
              tok_lineno := lineno (lexer self);
              tok_lexpos := lexpos (lexer self) |} in
  token self = Some (Ok (Some t, after_token t (List.length x) self)).
Proof.
  intros Hskip Hx Hrest t.
  destruct (int_rule_selected x rest Hx Hrest) as (Hm & c & x' & -> & Hign).
  unfold token, lex_token. cbn [token_loop]. unfold token_round.
  rewrite Hskip. cbn [app] in *. rewrite Hign, Hm.
  cbn [func rule_INT_CONST].
  change (c :: x' ++ rest) with ((c :: x') ++ rest).
  rewrite firstn_exact by reflexivity.
  reflexivity.
Qed.

Lemma integers_are_recognised_witness :
  token (input (s "1_234;") fresh)
  = Some (Ok (Some (mkTok "INT_CONST" (s "1_234") 1 0),
              after_token (mkTok "INT_CONST" (s "1_234") 1 0) 5
                (input (s "1_234;") fresh))).
Proof.
  apply (integers_are_recognised (input (s "1_234;") fresh) (s "1_234") (s ";"));
    reflexivity.
Defined.

(** ** [scan] and [token()] *)

Lemma scan_loop_token_seq (fuel : nat) :
  forall (a b : UCLexer) (output toks : list LexToken) (fa : UCLexer),
    lexer a = lexer b ->
    scan_loop fuel a output = Some (Ok (toks, fa)) ->
    exists new, toks = output ++ new /\ token_seq new b.
Proof.
  induction fuel as [|fuel IH]; intros a b output toks fa Hl H; [discriminate|].
  cbn [scan_loop] in H.
  destruct (lex_token a) as [[[t a1]|e]|] eqn:Ha; try discriminate.
  unfold lex_token in Ha.
  destruct (token_loop_in_step _ a b _ _ _ Hl Ha) as (b1 & Hb & Hs).
  rewrite Hl in Hb. fold (lex_token b) in Hb.
  apply token_of_lex_token in Hb.
  destruct t as [t|].
  - destruct (IH a1 {| lexer := lexer b1; last_token := Some t; errors := errors b1 |}
                _ _ _ (proj1 Hs) H) as (new & -> & Hseq).
    exists (t :: new). split; [rewrite <- app_assoc; reflexivity|].
    cbn [token_seq]. eauto.
  - inversion H; subst. exists []. split; [symmetry; apply app_nil_r|].
    cbn [token_seq]. eauto.
Qed.

(** X17.  [scan] returns what calling [token()] again and again returns:
    after [input(data)], successive calls of [token()] return the tokens
    of [scan(data)], in the same order, and then the end of input. *)
Theorem scan_is_repeated_token
    (data : str) (self : UCLexer) (toks : list LexToken) (final : UCLexer) :
  scan data self = Some (Ok (toks, final)) ->
  token_seq toks (input data self).
Proof.
  unfold scan. intros H.
  destruct (scan_loop_token_seq _ _ (input data self) _ _ _ eq_refl H)
    as (new & E & Hseq).
  simpl in E. subst new. exact Hseq.
Qed.

Lemma scan_is_repeated_token_witness :
  token_seq [ mkTok "INT" (s "int") 1 0; mkTok "ID" (s "x") 1 5;
              mkTok "SEMI" (s ";") 1 6 ]
    (input (s "int @x;") fresh).
Proof.
  apply (scan_is_repeated_token (s "int @x;") fresh _
           {| lexer := {| lexdata := s "int @x;"; lexpos := 8; lineno := 1 |};
              last_token := None;
              errors := [(Illegal_character "@", 1, 5%Z)] |}).
  vm_compute. reflexivity.
Defined.

(** ** Unterminated strings, anywhere in the buffer *)

(** X18.  A string that is opened under the cursor, wherever the cursor
    is, and never closed (no double quote follows) makes [token()] call
    the callback once, with the message of the unterminated string, the
    line counter and the column of the opening quote, and return the end
    of input with the cursor behind the buffer; the line counter is not
    changed. *)
Theorem unterminated_string_anywhere (self : UCLexer) (x : str) :
  skipn (lexpos (lexer self)) (lexdata (lexer self)) = dquote :: x ->
  ~ In dquote x ->
  let pos := lexpos (lexer self) in
  let tok := {| tok_type := "unterminated_string";
                tok_value := dquote :: x;
                tok_lineno := lineno (lexer self);
                tok_lexpos := pos |} in
  token self
  = Some (Ok (None,
       {| lexer := {| lexdata := lexdata (lexer self);
                      lexpos := pos + S (List.length x) + 1 + 1;
                      lineno := lineno (lexer self) |};
          last_token := None;
          errors := errors self
                    ++ [(Unterminated_string, lineno (lexer self),
                         find_tok_column self tok)] |})).
Proof.
  intros Hskip Hno pos tok.
  pose proof (lex_token_unterminated_string self x Hskip Hno) as H.
  cbv zeta in H. apply token_of_lex_token in H. exact H.
Qed.

Lemma unterminated_string_anywhere_witness :
  let text := s "x;" ++ newline :: s "y = " ++ dquote :: s "abc" in
  let self := with_lexer (set_lineno 2) (with_lexer (set_lexpos 7) (input text fresh)) in
  token self
  = Some (Ok (None,
       {| lexer := {| lexdata := text; lexpos := 13; lineno := 2 |};
          last_token := None;
          errors := [(Unterminated_string, 2, 5%Z)] |})).
Proof.
  intros text self.
  apply (unterminated_string_anywhere self (s "abc")).
  - reflexivity.
  - simpl. intuition discriminate.
Defined.

(** ** Floating constants with a point *)

Lemma greedy_int_tail_k (m : nat) :
  forall (x rest : str) (n : nat) (k : cont) (res : str),
    List.length x <= m ->
    int_tail x = true -> num_ends rest = true ->
    List.length (x ++ rest) <= n ->
    k rest = Some res ->
    star_loop true (rmatch int_more) k n (x ++ rest) = Some res.
Proof.
  induction m as [|m IH]; intros x rest n k res Hm Hx Hrest Hn Hk.
  - destruct x; [|simpl in Hm; lia]. clear Hm Hx. cbn [app].
    destruct n as [|n]; [simpl; rewrite Hk; reflexivity|].
    cbn [star_loop]. destruct rest as [|c rest]; [simpl; rewrite Hk; reflexivity|].
    rewrite int_more_step. simpl in Hrest. unfold num_char in Hrest.
    apply negb_true_iff, orb_false_iff in Hrest. destruct Hrest as [Hd Hu].
    rewrite Hd, Hu, Hk. reflexivity.
  - destruct x as [|c x].
    { apply (IH [] rest n); auto. simpl. lia. }
    destruct n as [|n]; [simpl in Hn; lia|].
    cbn [int_tail] in Hx. cbn [app star_loop]. rewrite int_more_step.
    destruct (is_digit c) eqn:Hc.
    + rewrite ltb_tail, (IH x rest n k res); auto; simpl in *; lia.
    + destruct (Ascii.eqb c "_") eqn:Hu; [|discriminate].
      destruct x as [|d x]; [discriminate|].
      apply andb_true_iff in Hx. destruct Hx as [Hd Hx].
      cbn [app]. rewrite Hd, ltb_tail2, (IH x rest n k res); auto; simpl in *; lia.
Qed.

Lemma rmatch_digits (x rest : str) (k : cont) (res : str) :
  int_text x = true -> num_ends rest = true -> k rest = Some res ->
  rmatch digits (x ++ rest) k = Some res.
Proof.
  intros Hx Hrest Hk. destruct x as [|c x]; [discriminate|].
  simpl in Hx. apply andb_true_iff in Hx. destruct Hx as [Hc Hx].
  assert (E : rmatch digits ((c :: x) ++ rest) k
              = star_loop true (rmatch int_more) k
                  (List.length (x ++ rest)) (x ++ rest)).
  { cbn [app]. unfold digits. cbn [rmatch digit accepts]. rewrite Hc. reflexivity. }
  rewrite E. apply (greedy_int_tail_k (List.length x)); auto.
Qed.

Lemma rmatch_digits_none (rest : str) (k : cont) :
  num_ends rest = true -> rmatch digits rest k = None.
Proof.
  intros H. destruct rest as [|c rest]; [reflexivity|].
  simpl in H. unfold num_char in H.
  apply negb_true_iff, orb_false_iff in H. destruct H as [Hd _].
  unfold digits. cbn [rmatch digit accepts]. rewrite Hd. reflexivity.
Qed.

Lemma re_FLOAT_CONST_first_form (x : str) :
  rmatch re_FLOAT_CONST x Some
  = match
      match rmatch digits x after_int_part with
      | Some res => Some res
      | None =>
          rmatch ((Opt digits ;; lit "." ;; digits) ;; Opt (exp_mark ;; digits))
            x Some
      end
    with
    | Some res => Some res
    | None =>
        rmatch (digit ;; int_more ;; exp_mark ;; digit ;; int_more) x Some
    end.
Proof. reflexivity. Qed.

Lemma re_FLOAT_CONST_second_form (y : str) :
  rmatch re_FLOAT_CONST ("."%char :: y) Some
  = match rmatch digits y after_fraction with
    | Some res => Some res
    | None => None
    end.
Proof. reflexivity. Qed.

Lemma after_fraction_no_exponent (rest : str) :
  no_exponent rest = true -> after_fraction rest = Some rest.
Proof.
  intros H. destruct rest as [|c rest]; [reflexivity|].
  simpl in H. apply negb_true_iff, orb_false_iff in H. destruct H as [H1 H2].
  apply orb_false_iff in H2. destruct H2 as [H2 _].
  unfold after_fraction, Opt, exp_mark. cbn [rmatch lit accepts].
  rewrite H1, H2. reflexivity.
Qed.

Lemma after_int_part_fraction (f rest : str) :
  match f with [] => true | _ :: _ => int_text f end = true ->
  num_ends rest = true ->
  after_int_part ("."%char :: f ++ rest) = Some rest.
Proof.
  intros Hf Hrest. unfold after_int_part, Opt.
  cbn [rmatch lit accepts]. rewrite Ascii.eqb_refl.
  destruct f as [|c f].
  - cbn [app]. rewrite rmatch_digits_none by exact Hrest. reflexivity.
  - rewrite (rmatch_digits (c :: f) rest Some rest Hf Hrest eq_refl). reflexivity.
Qed.

Lemma rmatch_FLOAT_CONST (i f rest : str) :
  float_shape i f rest = true ->
  rmatch re_FLOAT_CONST ((i ++ "."%char :: f) ++ rest) Some = Some rest.
Proof.
  unfold float_shape. intros H. apply andb_true_iff in H. destruct H as [H Hrest].
  rewrite <- app_assoc. cbn [app].
  destruct i as [|c i].
  - apply andb_true_iff in H. destruct H as [Hf Hexp].
    cbn [app]. rewrite re_FLOAT_CONST_second_form.
    rewrite (rmatch_digits f rest after_fraction rest Hf Hrest
               (after_fraction_no_exponent rest Hexp)).
    reflexivity.
  - apply andb_true_iff in H. destruct H as [Hi Hf].
    rewrite re_FLOAT_CONST_first_form.
    rewrite (rmatch_digits (c :: i) ("."%char :: f ++ rest) after_int_part rest Hi);
      [reflexivity|reflexivity|].
    apply after_int_part_fraction; assumption.
Qed.

(** X19.  A floating constant written with a point under the cursor, an
    integer part and a point, an integer part, a point and a fraction,
    or a point and a fraction, is returned as one token of type
    [FLOAT_CONST] with its text as value, where the constant ends there:
    no digit or underscore follows, and after the form without integer
    part no exponent letter either. *)
Theorem pointed_floats_are_recognised (self : UCLexer) (i f rest : str) :
  skipn (lexpos (lexer self)) (lexdata (lexer self))
  = (i ++ "."%char :: f) ++ rest ->
  float_shape i f rest = true ->
  let t := {| tok_type := "FLOAT_CONST";
              tok_value := i ++ "."%char :: f;
              tok_lineno := lineno (lexer self);
              tok_lexpos := lexpos (lexer self) |} in
  token self
  = Some (Ok (Some t, after_token t (List.length (i ++ "."%char :: f)) self)).
Proof.
  intros Hskip Hshape t.
  pose proof (rmatch_FLOAT_CONST i f rest Hshape) as Hr.
  assert (Hmatch : re_match re_FLOAT_CONST ((i ++ "."%char :: f) ++ rest)
                   = Some (List.length (i ++ "."%char :: f))).
  { unfold re_match. rewrite Hr. f_equal. rewrite length_app. lia. }
  assert (Hhead : exists c y,
             (i ++ "."%char :: f) ++ rest = c :: y
             /\ in_str c t_ignore = false
             /\ Forall (fun r' => re_match (pattern r') (c :: y) = None)
                  (firstn 6 lexre)).
  { unfold float_shape in Hshape. destruct i as [|c i].
    - exists "."%char, (f ++ rest). split; [reflexivity|]. split; [reflexivity|].
      rewrite lexre_eq. cbn [firstn].
      repeat (constructor; [apply re_match_wrong_start; reflexivity|]).
      constructor.
    - apply andb_true_iff in Hshape. destruct Hshape as [Hshape _].
      apply andb_true_iff in Hshape. destruct Hshape as [Hi _].
      simpl in Hi. apply andb_true_iff in Hi. destruct Hi as [Hc _].
      destruct (digit_char_facts c Hc) as (F1 & F2 & F3 & F4 & F5 & F6 & F7 & F8).
      exists c, ((i ++ "."%char :: f) ++ rest).
      split; [reflexivity|]. split; [exact F8|].
      rewrite lexre_eq. cbn [firstn].
      repeat (constructor;
              [apply re_match_wrong_start; [reflexivity|assumption]|]).
      constructor. }
  destruct Hhead as (c & y & E & Hign & Hbefore).
  assert (Hm : lexre_match lexre (c :: y)
               = Some (rule_FLOAT_CONST, List.length (i ++ "."%char :: f))).
  { apply (lexre_match_first lexre (firstn 6 lexre) (skipn 7 lexre)).
    - rewrite lexre_eq. reflexivity.
    - exact Hbefore.
    - rewrite <- E. exact Hmatch. }
  unfold token, lex_token. cbn [token_loop]. unfold token_round.
  rewrite Hskip, E, Hign, Hm. cbn [func rule_FLOAT_CONST].
  rewrite <- E, firstn_exact by reflexivity.
  reflexivity.
Qed.

Lemma pointed_floats_are_recognised_witness :
  token (input (s "12.34;") fresh)
  = Some (Ok (Some (mkTok "FLOAT_CONST" (s "12.34") 1 0),
              after_token (mkTok "FLOAT_CONST" (s "12.34") 1 0) 5
                (input (s "12.34;") fresh)))
  /\ token (input (s ".5") fresh)
     = Some (Ok (Some (mkTok "FLOAT_CONST" (s ".5") 1 0),
                 after_token (mkTok "FLOAT_CONST" (s ".5") 1 0) 2
                   (input (s ".5") fresh))).
Proof.
  split.
  - apply (pointed_floats_are_recognised (input (s "12.34;") fresh)
             (s "12") (s "34") (s ";")); reflexivity.
  - apply (pointed_floats_are_recognised (input (s ".5") fresh)
             [] (s "5") []); reflexivity.
Defined.

(** ** The rule selected, and what [token()] makes of it *)

Lemma lex_token_at_field (self : UCLexer) :
  lex_token (with_lexer (set_lexpos (lexpos (lexer self))) self) = lex_token self.
Proof. destruct self as [[d p l] lt er]. reflexivity. Qed.

Lemma lex_token_leaves (self : UCLexer) r :
  token_round self (lexpos (lexer self)) = Leave r ->
  lex_token self = Some r.
Proof. intros H. unfold lex_token. cbn [token_loop]. rewrite H. reflexivity. Qed.

(** C1 (amended).  The rules are tried in one fixed order: the six rule
    functions in the order of their definition, then the string rules by
    decreasing length of their pattern text.  At every cursor position
    the rule selected is the first rule of this order that matches
    there, with the match its own pattern finds; the rules after it play
    no part, whatever they match and however long.  [token()] then
    returns the token of this rule when it is a string rule; when the
    rule has a function, it returns the token the function returns, and
    when the function returns none it goes on from the state the
    function leaves, further on in the buffer; it raises no exception.
    So a closed string literal is taken by [t_STRING_LITERAL] up to its
    closing quote although [t_unterminated_string], later in the order,
    matches up to the end of the text, and a closed block comment by
    [t_comment] although [t_unterminated_comment] matches up to the end
    of the text. *)
Theorem first_matching_rule_selected :
  map rname lexre
  = [ "t_STRING_LITERAL"; "t_ID"; "t_NEWLINE"; "t_comment";
      "t_unterminated_string"; "t_unterminated_comment";
      "t_FLOAT_CONST"; "t_CHAR_CONST"; "t_INT_CONST";
      "t_OR"; "t_AND"; "t_EQ"; "t_GE"; "t_LBRACE"; "t_LBRACKET"; "t_LE";
      "t_LPAREN"; "t_NE"; "t_PLUS"; "t_RBRACE"; "t_RBRACKET"; "t_RPAREN";
      "t_TIMES"; "t_ADDRESS"; "t_COMMA"; "t_DIVIDE"; "t_EQUALS"; "t_GT";
      "t_LT"; "t_MINUS"; "t_MOD"; "t_NOT"; "t_SEMI" ]%string
  /\ (forall (self : UCLexer) (c : ascii) (x : str)
             (before after : list rule) (r : rule) (n : nat),
        skipn (lexpos (lexer self)) (lexdata (lexer self)) = c :: x ->
        in_str c t_ignore = false ->
        lexre = before ++ r :: after ->
        Forall (fun r' => re_match (pattern r') (c :: x) = None) before ->
        re_match (pattern r) (c :: x) = Some n ->
        let tok := plain_token r n self in
        let self1 := with_lexer (set_lexpos (lexpos (lexer self) + n)) self in
        lexre_match lexre (c :: x) = Some (r, n)
        /\ tok_value tok = firstn n (c :: x)
        /\ match func r with
           | None => token self = Some (Ok (Some tok, after_token tok n self))
           | Some f =>
               match f tok self1 with
               | Ok (Some t, self2) =>
                   token self
                   = Some (Ok (Some t, {| lexer := lexer self2;
                                          last_token := Some t;
                                          errors := errors self2 |}))
               | Ok (None, self2) =>
                   lexpos (lexer self) < lexpos (lexer self2)
                   /\ token self = token self2
               | Raise _ => False
               end
           end)
  /\ (forall (x : str) (r : rule) (n : nat),
        lexre_match lexre x = Some (r, n) ->
        exists before after,
          lexre = before ++ r :: after
          /\ Forall (fun r' => re_match (pattern r') x = None) before
          /\ re_match (pattern r) x = Some n)
  /\ (forall body rest : str,
        closed_body body = true ->
        re_match (pattern rule_unterminated_string)
          (dquote :: body ++ dquote :: rest)
        = Some (List.length body + 2 + List.length rest)
        /\ lexre_match lexre (dquote :: body ++ dquote :: rest)
           = Some (rule_STRING_LITERAL, List.length body + 2))
  /\ (forall (x : str) (i : nat),
        closes_at x = Some i ->
        re_match (pattern rule_unterminated_comment) ("/"%char :: "*"%char :: x)
        = Some (List.length x + 2)
        /\ i + 4 <= List.length x + 2
        /\ lexre_match lexre ("/"%char :: "*"%char :: x)
           = Some (rule_comment, i + 4)).
Proof.
  split; [vm_compute; reflexivity|]. split; [|split; [|split]].
  - intros self c x before after r n Hskip Hign Hsplit Hbefore Hr tok self1.
    assert (Hm : lexre_match lexre (c :: x) = Some (r, n))
      by (eapply lexre_match_first; eauto).
    split; [exact Hm|].
    assert (Hv : tok_value tok = firstn n (c :: x))
      by (subst tok; unfold plain_token; cbn [tok_value]; rewrite Hskip;
          reflexivity).
    split; [exact Hv|].
    assert (Etok : tok = {| tok_type := toktype r;
                            tok_value := firstn n (c :: x);
                            tok_lineno := lineno (lexer self);
                            tok_lexpos := lexpos (lexer self) |})
      by (subst tok; unfold plain_token; rewrite Hskip; reflexivity).
    pose proof (token_round_ok self (lexpos (lexer self))) as Hok.
    assert (Hround : token_round self (lexpos (lexer self))
                     = match func r with
                       | None => Leave (Ok (Some tok, self1))
                       | Some f =>
                           match f tok self1 with
                           | Raise e => Leave (Raise e)
                           | Ok (None, self2) => Again self2 (lexpos (lexer self2))
                           | Ok (Some newtok, self2) =>
                               if in_tokens (tok_type newtok)
                               then Leave (Ok (Some newtok, self2))
                               else Leave (Raise LexError)
                           end
                       end).
    { unfold token_round. rewrite Hskip, Hign, Hm, Etok. reflexivity. }
    rewrite Hround in Hok.
    destruct (func r) as [f|].
    + destruct (f tok self1) as [[[t|] self2]|e].
      * destruct (in_tokens (tok_type t)); [|contradiction].
        apply lex_token_leaves in Hround. unfold token. rewrite Hround.
        reflexivity.
      * simpl in Hok. destruct Hok as (_ & Hp & _). split; [exact Hp|].
        apply token_of_equal_lex_token.
        rewrite (lex_token_again _ _ _ Hround). apply lex_token_at_field.
      * contradiction.
    + apply lex_token_leaves in Hround. unfold token. rewrite Hround.
      reflexivity.
  - intros x r n. apply lexre_match_some.
  - intros body rest Hc. split.
    + cbn [pattern rule_unterminated_string].
      rewrite re_unterminated_string_matches. f_equal.
      rewrite length_app. cbn [List.length]. lia.
    + apply (lexre_match_first lexre [] (tl lexre)).
      * rewrite lexre_eq. reflexivity.
      * constructor.
      * apply re_STRING_LITERAL_matches. exact Hc.
  - intros x i Hi. split; [|split].
    + cbn [pattern rule_unterminated_comment].
      rewrite re_unterminated_comment_matches. f_equal. lia.
    + destruct (closes_at_split x i Hi) as [Hle Hlen]. lia.
    + apply comment_rule_selected. rewrite re_comment_block, Hi. reflexivity.
Qed.

(** On the text [<= 1] the rules before [t_LE] fail, [t_LE] matches two
    characters and is selected; [t_LT], further down, is not consulted.
    On a comment followed by an identifier, [t_comment] is selected and
    the call goes on behind the comment. *)
Lemma first_matching_rule_selected_witness :
  (let self := input (s "<= 1") fresh in
   let r := mkRule "t_LE" (lit "<" ;; lit "=") None in
   lexre_match lexre (s "<= 1") = Some (r, 2)
   /\ token self
      = Some (Ok (Some (mkTok "LE" (s "<=") 1 0),
                  after_token (mkTok "LE" (s "<=") 1 0) 2 self)))
  /\ (let self := input (s "/**/x") fresh in
      lexre_match lexre (s "/**/x") = Some (rule_comment, 4)
      /\ token self = token (with_lexer (set_lexpos 4) self))
  /\ lexre_match lexre (dquote :: s "a" ++ dquote :: s " b")
     = Some (rule_STRING_LITERAL, 3)
  /\ lexre_match lexre (s "/* a */ b") = Some (rule_comment, 7).
Proof.
  destruct first_matching_rule_selected as (_ & H2 & _ & H3 & H4).
  split; [|split; [|split]].
  - intros self r.
    destruct (H2 self "<"%char (s "= 1") (firstn 15 lexre) (skipn 16 lexre) r 2)
      as (A & _ & B).
    + reflexivity.
    + reflexivity.
    + vm_compute. reflexivity.
    + rewrite lexre_eq. cbn [firstn].
      repeat (constructor; [vm_compute; reflexivity|]). constructor.
    + vm_compute. reflexivity.
    + split; [exact A|exact B].
  - intros self.
    destruct (H2 self "/"%char (s "**/x") (firstn 3 lexre) (skipn 4 lexre)
                rule_comment 4)
      as (A & _ & B).
    + reflexivity.
    + reflexivity.
    + vm_compute. reflexivity.
    + rewrite lexre_eq. cbn [firstn].
      repeat (constructor; [vm_compute; reflexivity|]). constructor.
    + vm_compute. reflexivity.
    + split; [exact A|]. destruct B as [_ B]. exact B.
  - destruct (H3 (s "a") (s " b") eq_refl) as [_ A]. exact A.
  - destruct (H4 (s " a */ b") 3 eq_refl) as (_ & _ & A). exact A.
Defined.

(** ** Illegal characters *)

(** C6.  When no rule matches the text under the cursor, the round of
    [token()] there calls the callback once, with the message of the
    illegal character, the line counter and the column of the character,
    moves the cursor by exactly one character, changes nothing else and
    returns no token: it goes round again.  The call then returns what a
    call from the next character on returns; it does return, with the
    report in the log of errors just behind the ones made before the
    call, with the cursor behind the next character or further, and with
    a token, if any, that starts behind the illegal character.  The text
    [int @x;] gives the keyword [int], one report for [@] at column 5,
    the identifier [x] and the semicolon. *)
Theorem illegal_character_skipped :
  (forall (self : UCLexer) (c : ascii) (rest : str),
     skipn (lexpos (lexer self)) (lexdata (lexer self)) = c :: rest ->
     in_str c t_ignore = false ->
     lexre_match lexre (c :: rest) = None ->
     let pos := lexpos (lexer self) in
     let line := lineno (lexer self) in
     let report :=
       (Illegal_character c, line,
        (Z.of_nat pos - rfind newline (lexdata (lexer self)) pos)%Z) in
     let self1 :=
       {| lexer := {| lexdata := lexdata (lexer self);
                      lexpos := pos + 1;
                      lineno := line |};
          last_token := last_token self;
          errors := errors self ++ [report] |} in
     token_round self pos = Again self1 (pos + 1)
     /\ exists t self' more,
          token self = Some (Ok (t, self'))
          /\ token self1 = Some (Ok (t, self'))
          /\ errors self' = errors self ++ report :: more
          /\ lexdata (lexer self') = lexdata (lexer self)
          /\ pos + 1 < lexpos (lexer self')
          /\ (forall tok, t = Some tok -> pos + 1 <= tok_lexpos tok))
  /\ scan (s "int @x;") fresh
     = Some (Ok ([ mkTok "INT" (s "int") 1 0;
                   mkTok "ID" (s "x") 1 5;
                   mkTok "SEMI" (s ";") 1 6 ],
                 {| lexer := {| lexdata := s "int @x;"; lexpos := 8; lineno := 1 |};
                    last_token := None;
                    errors := [(Illegal_character "@", 1, 5%Z)] |})).
Proof.
  split; [|vm_compute; reflexivity].
  intros self c rest Hskip Hign Hm pos line report self1.
  assert (Hround : token_round self pos = Again self1 (pos + 1)).
  { unfold token_round. subst pos. rewrite Hskip, Hign, Hm.
    cbn [t_error tok_value].
    cbn [_error lexer skip set_lexpos with_lexer lexpos lexdata].
    replace (Nat.eqb (lexpos (lexer self)) (lexpos (lexer self) + 1)) with false
      by (symmetry; apply Nat.eqb_neq; lia).
    reflexivity. }
  split; [exact Hround|].
  assert (E : lex_token self = lex_token self1).
  { subst pos. rewrite (lex_token_again _ _ _ Hround). reflexivity. }
  destruct (token_returns self1) as (t & self' & Ht & _ & Hd & Hp).
  exists t, self'.
  destruct (token_inv _ _ _ Ht) as (s1 & Hl & El & Ee & _).
  destruct (lex_token_keeps _ _ _ Hl) as [(_ & _ & (more & Hmore) & _) Htok].
  exists more.
  split; [unfold token; rewrite E; exact Ht|].
  split; [exact Ht|].
  split; [rewrite Ee, Hmore; cbn [errors self1]; rewrite <- app_assoc; reflexivity|].
  split; [exact Hd|].
  split; [exact Hp|].
  intros tok Etok. destruct (Htok tok Etok) as (s0 & p0 & _ & Hp0 & Hat).
  destruct Hat as (Hpos & _). rewrite Hpos. exact Hp0.
Qed.

(** The character [@] of the text [int @x;], with the cursor on it: the
    call returns the identifier behind it, and the log holds the one
    report. *)
Lemma illegal_character_skipped_witness :
  let self := with_lexer (set_lexpos 4) (input (s "int @x;") fresh) in
  let self1 :=
    {| lexer := {| lexdata := s "int @x;"; lexpos := 5; lineno := 1 |};
       last_token := None;
       errors := [(Illegal_character "@", 1, 5%Z)] |} in
  token_round self 4 = Again self1 5
  /\ exists t self' more,
       token self = Some (Ok (t, self'))
       /\ token self1 = Some (Ok (t, self'))
       /\ errors self' = (Illegal_character "@", 1, 5%Z) :: more
       /\ lexdata (lexer self') = s "int @x;"
       /\ 5 < lexpos (lexer self')
       /\ (forall tok, t = Some tok -> 5 <= tok_lexpos tok).
Proof.
  intros self self1.
  destruct illegal_character_skipped as [H _].
  apply (H self "@"%char (s "x;")).
  - reflexivity.
  - reflexivity.
  - vm_compute. reflexivity.
Defined.
